(** * File-manager organisation engine: duplicate grouping, type-based
      organisation, batch renaming and directory statistics
      (src/server/file_manager.py).

    The Python functions work on the host file system through [pathlib],
    [os], [shutil] and [hashlib].  The embedding makes the file system an
    explicit value that is threaded through the mutating operations, and
    models each library call by what it does on that value.  Every tool
    function returns one of a handful of message templates; the result types
    below have one constructor per template and carry the data the template
    renders. *)

From Stdlib Require Import Strings.Byte Strings.Ascii DecimalString DecimalNat.
From stdpp Require Import gmap strings list fin_maps sorting.


(** ** Paths and the file system *)

(** A path is its sequence of components; [[]] is the root. *)
Abbreviation path := (list string).

(** What [stat] and [open] can observe of a regular file: the bytes, whether
    the process may read them, and the modification time (seconds). *)
Record file_data := FileData {
  content : list byte;
  readable : bool;
  mtime : Z
}.

Inductive node :=
  | File (d : file_data)
  | Dir.

Abbreviation filesystem := (gmap path node).

Module Pathlib.

(** [Path.exists()] *)
Definition exists_ (fs : filesystem) (p : path) : bool :=
  match fs !! p with Some _ => true | None => false end.

(** [Path.is_file()] *)
Definition is_file (fs : filesystem) (p : path) : bool :=
  match fs !! p with Some (File _) => true | _ => false end.

(** [Path.is_dir()] *)
Definition is_dir (fs : filesystem) (p : path) : bool :=
  match fs !! p with Some Dir => true | _ => false end.

(** [Path.name]: the final component. *)
Definition name (p : path) : string := List.last p "".

(** [Path.parent] *)
Definition parent (p : path) : path := removelast p.

Record stat_result := StatResult { st_size : Z; st_mtime : Z }.

(** [Path.stat()]; raises (here [None]) when the path does not exist. *)
Definition stat (fs : filesystem) (p : path) : option stat_result :=
  match fs !! p with
  | Some (File d) => Some (StatResult (Z.of_nat (length (content d))) (mtime d))
  | Some Dir => Some (StatResult 0 0)
  | None => None
  end.

(** [open(p, 'rb')] followed by reading: the bytes, or an exception. *)
Definition read_bytes (fs : filesystem) (p : path) : option (list byte) :=
  match fs !! p with
  | Some (File d) => if readable d then Some (content d) else None
  | _ => None
  end.

(** [descendant root p]: [p] lies strictly below [root]. *)
Definition descendant (root p : path) : Prop := root `prefix_of` p ∧ p ≠ root.

Global Instance descendant_dec root p : Decision (descendant root p).
Proof. unfold descendant. apply _. Defined.

(** [Path.rglob('*')]: every entry strictly below [root], files and
    directories alike, in an order the library does not specify.  On a
    root that is not a directory the generator yields nothing. *)
Definition rglob (fs : filesystem) (root : path) : list path :=
  if is_dir fs root
  then filter (descendant root) (map_to_list fs).*1
  else [].

(** [Path.iterdir()]: the direct children; raises on a non-directory. *)
Definition iterdir (fs : filesystem) (root : path) : option (list path) :=
  if is_dir fs root
  then Some (filter (λ p, parent p = root ∧ p ≠ root) (map_to_list fs).*1)
  else None.

(** [Path.suffix] and [Path.stem]: split at the last dot, unless that dot
    is the first or the last character of the name. *)
Fixpoint rfind (c : Ascii.ascii) (s : string) : option nat :=
  match s with
  | EmptyString => None
  | String a s' =>
      match rfind c s' with
      | Some i => Some (S i)
      | None => if Ascii.eqb a c then Some 0 else None
      end
  end.

Definition suffix_of_name (nm : string) : string :=
  match rfind "."%char nm with
  | Some i =>
      if (0 <? i) && (i <? String.length nm - 1)
      then String.substring i (String.length nm - i) nm
      else ""
  | None => ""
  end.

Definition stem_of_name (nm : string) : string :=
  match rfind "."%char nm with
  | Some i =>
      if (0 <? i) && (i <? String.length nm - 1)
      then String.substring 0 i nm
      else nm
  | None => nm
  end.

Definition suffix (p : path) : string := suffix_of_name (name p).
Definition stem (p : path) : string := stem_of_name (name p).

End Pathlib.

Import Pathlib.

(** [str.lower()] on ASCII text: the lower-casing of the concrete trees
    below, whose names are ASCII.  The tools themselves take the
    lower-casing of the language as a parameter. *)
Definition lower_ascii (a : Ascii.ascii) : Ascii.ascii :=
  let n := Ascii.nat_of_ascii a in
  if (65 <=? n) && (n <=? 90) then Ascii.ascii_of_nat (n + 32) else a.

Fixpoint lower (s : string) : string :=
  match s with
  | EmptyString => EmptyString
  | String a s' => String (lower_ascii a) (lower s')
  end.

(** [str(n)] for a non-negative integer. *)
Definition str_of_nat (n : nat) : string := NilEmpty.string_of_uint (Nat.to_uint n).

(** ** find_duplicate_files *)

(** A regular file at or above the threshold: what the scan counts. *)
Definition meets_threshold (fs : filesystem) (min_size : Z) (p : path) : bool :=
  is_file fs p &&
  match stat fs p with
  | Some s => bool_decide (st_size s >= min_size)%Z
  | None => false
  end.

Section FindDuplicates.

(** [hashlib.md5]: an incremental hash, left abstract. *)
Context {md5_state : Type}.
Variable md5_new : md5_state.
Variable md5_update : md5_state → list byte → md5_state.
Variable md5_hexdigest : md5_state → string.

(** [iter(lambda: f.read(4096), b"")]: blocks of 4096 bytes until the
    empty read.  Each block consumes at least one byte, so the length of
    the data bounds the number of reads. *)
Fixpoint read_chunks (fuel : nat) (data : list byte) : list (list byte) :=
  match fuel with
  | O => []
  | S fuel' =>
      match data with
      | [] => []
      | _ => take 4096 data :: read_chunks fuel' (drop 4096 data)
      end
  end.

Definition get_file_hash (fs : filesystem) (file_path : path) : option string :=
  match read_bytes fs file_path with
  | Some data =>
      Some (md5_hexdigest (foldl md5_update md5_new (read_chunks (length data) data)))
  | None => None
  end.

(** Loop state: [file_hashes] (a [defaultdict(list)]) and [total_files]. *)
Record dup_state := DupState {
  file_hashes : gmap string (list path);
  total_files : nat
}.

(** [file_hashes[h].append(p)] on a [defaultdict(list)]. *)
Definition append_to (h : string) (p : path) (m : gmap string (list path))
  : gmap string (list path) :=
  <[h := default [] (m !! h) ++ [p]]> m.

(** One iteration of the scanning loop.  The counter is bumped before the
    digest is computed; an exception anywhere in the [try] block leaves
    the state as it is at that point and moves to the next entry. *)
Definition dup_step (fs : filesystem) (min_size : Z) (st : dup_state) (file_path : path)
  : dup_state :=
  if is_file fs file_path then
    match stat fs file_path with
    | Some s =>
        if bool_decide (st_size s >= min_size)%Z then
          let st1 := DupState (file_hashes st) (S (total_files st)) in
          match get_file_hash fs file_path with
          | Some file_hash =>
              DupState (append_to file_hash file_path (file_hashes st1)) (total_files st1)
          | None => st1
          end
        else st
    | None => st
    end
  else st.

Definition dup_scan (fs : filesystem) (min_size : Z) (walk : list path) : dup_state :=
  foldl (dup_step fs min_size) (DupState ∅ 0) walk.

(** [{h: files for h, files in file_hashes.items() if len(files) > 1}] *)
Definition duplicates_of (m : gmap string (list path)) : gmap string (list path) :=
  filter (λ kv, 1 < length kv.2) m.

Inductive dup_result :=
  | DupNotExist                                   (* "Directory ... does not exist." *)
  | DupNone (scanned : nat)                       (* "No duplicate files found ..." *)
  | DupFound (groups : list (Z * string * list path)) (scanned : nat)
  | DupError.                                     (* "Error finding duplicates: ..." *)

(** The report loop: each group is printed with the size of its first
    member, which is stat-ed again, and the head of its digest.  A Python
    dict lists its items in insertion order; here the groups come in the
    order of the finite map, which only changes the order of display. *)
Fixpoint render_groups (fs : filesystem) (gs : list (string * list path))
  : option (list (Z * string * list path)) :=
  match gs with
  | [] => Some []
  | (hash_val, files) :: rest =>
      match files with
      | [] => None
      | first :: _ =>
          match stat fs first, render_groups fs rest with
          | Some s, Some out => Some ((st_size s, hash_val, files) :: out)
          | _, _ => None
          end
      end
  end.

(** The body of [find_duplicate_files], for a traversal [walker] that
    stands for [Path.rglob('*')] with some order of its own. *)
Definition find_duplicate_files_with (walker : filesystem → path → list path)
    (fs : filesystem) (directory : path) (min_size : Z) : dup_result :=
  if negb (exists_ fs directory) then DupNotExist
  else
    let st := dup_scan fs min_size (walker fs directory) in
    let duplicates := duplicates_of (file_hashes st) in
    if bool_decide (duplicates = ∅) then DupNone (total_files st)
    else
      match render_groups fs (map_to_list duplicates) with
      | Some gs => DupFound gs (total_files st)
      | None => DupError
      end.

Definition find_duplicate_files (fs : filesystem) (directory : path) (min_size : Z)
  : dup_result :=
  find_duplicate_files_with rglob fs directory min_size.

(** The entries the scan files under digest [h]. *)
Definition filed_under (fs : filesystem) (min_size : Z) (h : string) (p : path) : Prop :=
  meets_threshold fs min_size p = true ∧ get_file_hash fs p = Some h.

Global Instance filed_under_dec fs min_size h p : Decision (filed_under fs min_size h p).
Proof. unfold filed_under. apply _. Defined.

(** A counted entry whose digest could not be computed. *)
Definition unhashed (fs : filesystem) (min_size : Z) (p : path) : Prop :=
  meets_threshold fs min_size p = true ∧ get_file_hash fs p = None.

Global Instance unhashed_dec fs min_size p : Decision (unhashed fs min_size p).
Proof. unfold unhashed. apply _. Defined.

(** [file_hashes[h]], read without inserting. *)
Definition bucket (m : gmap string (list path)) (h : string) : list path :=
  default [] (m !! h).

(** No key of [file_hashes] maps to an empty list. *)
Definition no_empty_bucket (m : gmap string (list path)) : Prop :=
  ∀ h l, m !! h = Some l → l ≠ [].

End FindDuplicates.

(** ** File-system updates: [Path.mkdir], [shutil.copy2], [Path.rename] *)

Module Os.

Inductive mkdir_outcome :=
  | MkOk (fs : filesystem)
  | MkFileNotFound        (* the parent is missing *)
  | MkOSError.            (* the path exists, or the parent is a file *)

(** [os.mkdir(p)] *)
Definition os_mkdir (fs : filesystem) (p : path) : mkdir_outcome :=
  match fs !! p with
  | Some _ => MkOSError
  | None =>
      match fs !! parent p with
      | Some Dir => MkOk (<[p := Dir]> fs)
      | Some (File _) => MkOSError
      | None => MkFileNotFound
      end
  end.

(** [Path.mkdir(parents=False, exist_ok=e)] *)
Definition mkdir_single (fs : filesystem) (p : path) (exist_ok : bool)
  : option filesystem :=
  match os_mkdir fs p with
  | MkOk fs' => Some fs'
  | MkFileNotFound => None
  | MkOSError => if exist_ok && is_dir fs p then Some fs else None
  end.

(** [Path.mkdir(parents=True, exist_ok=e)]: on a missing parent, create
    the parent chain first and retry once.  The recursion climbs one
    component per call, so the length of the path bounds it. *)
Fixpoint mkdir_parents (fuel : nat) (fs : filesystem) (p : path) (exist_ok : bool)
  : option filesystem :=
  match os_mkdir fs p with
  | MkOk fs' => Some fs'
  | MkOSError => if exist_ok && is_dir fs p then Some fs else None
  | MkFileNotFound =>
      if bool_decide (parent p = p) then None
      else
        match fuel with
        | O => None
        | S fuel' =>
            match mkdir_parents fuel' fs (parent p) true with
            | Some fs1 => mkdir_single fs1 p exist_ok
            | None => None
            end
        end
  end.

Definition mkdir (fs : filesystem) (p : path) (parents exist_ok : bool)
  : option filesystem :=
  if parents then mkdir_parents (length p) fs p exist_ok
  else mkdir_single fs p exist_ok.

(** [shutil.copy2(src, dst)]: content and metadata of a readable regular
    file are written to [dst] (into [dst] when it is a directory), replacing
    whatever regular file was there. *)
Definition copy2 (fs : filesystem) (src dst : path) : option filesystem :=
  match fs !! src with
  | Some (File d) =>
      if readable d then
        let dst' := if is_dir fs dst then dst ++ [name src] else dst in
        if bool_decide (dst' = src) then None
        else if is_dir fs dst' then None
        else if is_dir fs (parent dst') then Some (<[dst' := File d]> fs)
        else None
      else None
  | _ => None
  end.

(** [Path.rename(dst)] on a regular file: POSIX [rename] silently replaces
    a regular file at [dst]. *)
Definition rename (fs : filesystem) (src dst : path) : option filesystem :=
  match fs !! src with
  | Some (File d) =>
      if is_dir fs dst then None
      else if is_dir fs (parent dst) then Some (<[dst := File d]> (delete src fs))
      else None
  | _ => None
  end.

End Os.

Import Os.

Arguments mkdir : simpl never.

(** ** organize_files_by_type *)

(** The [categories] dict, in its literal (insertion) order. *)
Definition categories : list (string * list string) :=
  [ ("Images", [".jpg"; ".jpeg"; ".png"; ".gif"; ".bmp"; ".svg"; ".webp"]);
    ("Documents", [".pdf"; ".doc"; ".docx"; ".txt"; ".md"; ".odt"]);
    ("Spreadsheets", [".xls"; ".xlsx"; ".csv"; ".ods"]);
    ("Videos", [".mp4"; ".avi"; ".mkv"; ".mov"; ".wmv"; ".flv"]);
    ("Audio", [".mp3"; ".wav"; ".flac"; ".aac"; ".ogg"; ".m4a"]);
    ("Archives", [".zip"; ".rar"; ".7z"; ".tar"; ".gz"]);
    ("Code", [".py"; ".js"; ".java"; ".cpp"; ".c"; ".h"; ".cs"; ".html"; ".css"]);
    ("Others", []) ]%string.

(** [category = 'Others'], then the first entry listing [ext] wins. *)
Fixpoint find_category (cats : list (string * list string)) (ext : string) : string :=
  match cats with
  | [] => "Others"
  | (cat, extensions) :: rest =>
      if bool_decide (ext ∈ extensions) then cat else find_category rest ext
  end.

Arguments find_category : simpl never.

(** [d[k] += 1] on a [defaultdict(int)]. *)
Definition bump (k : string) (m : gmap string nat) : gmap string nat :=
  <[k := S (default 0 (m !! k))]> m.

(** The candidate name tried with a given counter. *)
Definition numbered (category_dir : path) (stem ext : string) (counter : nat) : path :=
  category_dir ++ [stem +:+ "_" +:+ str_of_nat counter +:+ ext].

(** [while destination.exists(): ...].  [fuel] bounds the number of tests;
    [None] stands for a loop that is still running when it is used up. *)
Fixpoint resolve_conflict (fuel : nat) (fs : filesystem) (category_dir : path)
    (stem ext : string) (destination : path) (counter : nat) : option path :=
  match fuel with
  | O => None
  | S fuel' =>
      if exists_ fs destination
      then resolve_conflict fuel' fs category_dir stem ext
             (numbered category_dir stem ext counter) (S counter)
      else Some destination
  end.

Record org_state := OrgState {
  org_fs : filesystem;
  moved_files : gmap string nat
}.

(** How one iteration of a [for] loop over the entries ends. *)
Inductive loop_outcome (S : Type) :=
  | Continue (st : S)               (* fall through to the next entry *)
  | Raised (fs : filesystem).       (* an exception reaches the outer handler *)
Arguments Continue {S} st.
Arguments Raised {S} fs.

(** The same for [organize_files_by_type], whose body has a [while] loop. *)
Inductive org_outcome :=
  | Next (st : org_state)
  | Throw (fs : filesystem)
  | Spin.                           (* the [while] loop used up its fuel *)

Section Organize.

(** [str.lower()] *)
Variable str_lower : string → string.

Variable target_path : path.

(** The destination chosen for [file_path] in category directory
    [category_dir]; as many candidates are tried as the file system has
    entries, plus two. *)
Definition choose_destination (fs : filesystem) (category_dir : path)
    (file_path : path) (ext : string) : option path :=
  resolve_conflict (S (S (size fs))) fs category_dir (stem file_path) ext
    (category_dir ++ [name file_path]) 1.

Definition organize_step (st : org_state) (file_path : path) : org_outcome :=
  let fs := org_fs st in
  if is_file fs file_path then
    let ext := str_lower (suffix file_path) in
    let category := find_category categories ext in
    let category_dir := target_path ++ [category] in
    match mkdir fs category_dir false true with
    | None => Throw fs
    | Some fs1 =>
        match choose_destination fs1 category_dir file_path ext with
        | None => Spin
        | Some destination =>
            match copy2 fs1 file_path destination with
            | Some fs2 => Next (OrgState fs2 (bump category (moved_files st)))
            | None => Next (OrgState fs1 (moved_files st))
            end
        end
    end
  else Next st.

Fixpoint organize_loop (walk : list path) (st : org_state) : org_outcome :=
  match walk with
  | [] => Next st
  | file_path :: rest =>
      match organize_step st file_path with
      | Next st' => organize_loop rest st'
      | Throw fs => Throw fs
      | Spin => Spin
      end
  end.

End Organize.

Inductive org_result :=
  | OrgNotExist                              (* "Source directory ... does not exist." *)
  | OrgDone (moved : gmap string nat)        (* "Files organized from ...", sorted counts *)
  | OrgError                                 (* "Error organizing files: ..." *)
  | OrgNoReturn.                             (* the call does not come back *)

(** The body of [organize_files_by_type], for a traversal [walker] standing
    for [source_path.rglob('*')]; the generator starts after the target
    directory has been made.  The file system after the call comes with the
    result. *)
Definition organize_files_by_type_with (str_lower : string → string)
    (walker : filesystem → path → list path)
    (fs : filesystem) (source_dir target_dir : path) : org_result * filesystem :=
  if negb (exists_ fs source_dir) then (OrgNotExist, fs)
  else
    match mkdir fs target_dir true true with
    | None => (OrgError, fs)
    | Some fs0 =>
        match organize_loop str_lower target_dir (walker fs0 source_dir) (OrgState fs0 ∅) with
        | Next st => (OrgDone (moved_files st), org_fs st)
        | Throw fs' => (OrgError, fs')
        | Spin => (OrgNoReturn, fs0)
        end
    end.

Definition organize_files_by_type (str_lower : string → string)
    (fs : filesystem) (source_dir target_dir : path) : org_result * filesystem :=
  organize_files_by_type_with str_lower rglob fs source_dir target_dir.

(** ** batch_rename_files *)

(** [s.split(',')] and [s.strip()] on ASCII strings. *)
Fixpoint split_on (c : Ascii.ascii) (s : string) : list string :=
  match s with
  | EmptyString => [EmptyString]
  | String a s' =>
      if Ascii.eqb a c then EmptyString :: split_on c s'
      else match split_on c s' with
           | [] => [String a EmptyString]
           | w :: ws => String a w :: ws
           end
  end.

Definition is_space (a : Ascii.ascii) : bool :=
  let n := Ascii.nat_of_ascii a in
  ((9 <=? n) && (n <=? 13)) || (n =? 32) || ((28 <=? n) && (n <=? 31)).

Fixpoint lstrip (s : string) : string :=
  match s with
  | EmptyString => EmptyString
  | String a s' => if is_space a then lstrip s' else s
  end.

Fixpoint rstrip (s : string) : string :=
  match s with
  | EmptyString => EmptyString
  | String a s' =>
      match rstrip s' with
      | EmptyString => if is_space a then EmptyString else String a EmptyString
      | r => String a r
      end
  end.

Definition strip (s : string) : string := rstrip (lstrip s).

(** [None], or the stripped pieces of a non-empty [file_extensions]. *)
Definition parse_extensions (file_extensions : option string) : option (list string) :=
  match file_extensions with
  | Some s => if bool_decide (s = "") then None else Some (strip <$> split_on "," s)
  | None => None
  end.

Record batch_state := BatchState {
  batch_fs : filesystem;
  renamed_files : list (string * string)
}.

Section BatchRename.

(** [re.sub(pattern, replacement, s)]; [None] when the library raises
    (an ill-formed pattern or replacement). *)
Variable re_sub : string → string → string → option string.

(** [parent / new_name] as a location of the file system: what both
    [exists()] and [rename()] are applied to. *)
Variable joinpath : path → string → path.

Variables (pattern replacement : string) (extensions : option (list string)).

(** [extensions and file_path.suffix not in extensions] *)
Definition filtered_out (file_path : path) : bool :=
  match extensions with
  | None | Some [] => false
  | Some exts => negb (bool_decide (suffix file_path ∈ exts))
  end.

Definition batch_step (st : batch_state) (file_path : path) : loop_outcome batch_state :=
  let fs := batch_fs st in
  if is_file fs file_path then
    if filtered_out file_path then Continue st
    else
      let old_name := name file_path in
      match re_sub pattern replacement old_name with
      | None => Raised fs
      | Some new_name =>
          if bool_decide (new_name ≠ old_name) then
            let new_path := joinpath (parent file_path) new_name in
            if exists_ fs new_path then Continue st
            else
              match rename fs file_path new_path with
              | Some fs' =>
                  Continue (BatchState fs' (renamed_files st ++ [(old_name, new_name)]))
              | None => Raised fs
              end
          else Continue st
      end
  else Continue st.

Fixpoint batch_loop (walk : list path) (st : batch_state) : loop_outcome batch_state :=
  match walk with
  | [] => Continue st
  | file_path :: rest =>
      match batch_step st file_path with
      | Continue st' => batch_loop rest st'
      | Raised fs => Raised fs
      end
  end.

End BatchRename.

Inductive batch_result :=
  | BatchNotExist                                   (* "Directory ... does not exist." *)
  | BatchNoMatch                                    (* "No files matched the pattern ..." *)
  | BatchRenamed (pairs : list (string * string))   (* "Renamed n file(s): ..." *)
  | BatchError.                                     (* "Error renaming files: ..." *)

(** The body of [batch_rename_files], for a listing [lister] standing for
    [Path.iterdir()]. *)
Definition batch_rename_files_with
    (re_sub : string → string → string → option string)
    (joinpath : path → string → path)
    (lister : filesystem → path → option (list path))
    (fs : filesystem) (directory : path) (pattern replacement : string)
    (file_extensions : option string) : batch_result * filesystem :=
  if negb (exists_ fs directory) then (BatchNotExist, fs)
  else
    let extensions := parse_extensions file_extensions in
    match lister fs directory with
    | None => (BatchError, fs)
    | Some walk =>
        match batch_loop re_sub joinpath pattern replacement extensions walk
                (BatchState fs []) with
        | Continue st =>
            (match renamed_files st with
             | [] => BatchNoMatch
             | pairs => BatchRenamed pairs
             end, batch_fs st)
        | Raised fs' => (BatchError, fs')
        end
    end.

Definition batch_rename_files re_sub joinpath :=
  batch_rename_files_with re_sub joinpath iterdir.

(** ** get_directory_statistics *)

(** A time stamp or [float('inf')]. *)
Inductive ext_time :=
  | Finite (t : Z)
  | PosInf.

(** [t < e] *)
Definition time_lt (t : Z) (e : ext_time) : bool :=
  match e with
  | Finite t' => bool_decide (t < t')%Z
  | PosInf => true
  end.

(** [datetime.fromtimestamp]: raises [OverflowError] on an infinite
    argument, and on a finite one when the time stamp is outside what the
    calendar (years 1 to 9999) and the platform support; [in_range] says
    which time stamps are supported. *)
Definition fromtimestamp (in_range : Z → bool) (e : ext_time) : option Z :=
  match e with
  | Finite t => if in_range t then Some t else None
  | PosInf => None
  end.

(** The time stamps of the years 1 to 9999 in UTC: the range of the
    examples. *)
Definition calendar_range (t : Z) : bool :=
  ((-62135596800 <=? t) && (t <=? 253402300799))%Z.

Module Statistics.

(** The [stats] dict.  The path of a record is [str(item)]; the empty string
  of the initial records is the empty path. *)
Record stats := Stats {
total_files : nat;
total_dirs : nat;
total_size : Z;
file_types : gmap string nat;
largest_file : path * Z;
oldest_file : path * ext_time;
newest_file : path * Z
}.

Definition initial_stats : stats :=
{| total_files := 0;
   total_dirs := 0;
   total_size := 0;
   file_types := ∅;
   largest_file := ([], 0%Z);
   oldest_file := ([], PosInf);
   newest_file := ([], 0%Z) |}.

(** [item.suffix or 'No extension'] *)
Definition type_key (item : path) : string :=
if bool_decide (suffix item = "") then "No extension" else suffix item.

(** One iteration.  [None]: a [stat()] raised, which ends the call. *)
Definition stats_step (fs : filesystem) (st : stats) (item : path) : option stats :=
if is_file fs item then
  match stat fs item with
  | Some s =>
      let size := st_size s in
      let mtime := st_mtime s in
      Some
        {| total_files := S (total_files st);
           total_dirs := total_dirs st;
           total_size := (total_size st + size)%Z;
           file_types := bump (type_key item) (file_types st);
           largest_file :=
             if bool_decide (size > (largest_file st).2)%Z
             then (item, size) else largest_file st;
           oldest_file :=
             if time_lt mtime (oldest_file st).2
             then (item, Finite mtime) else oldest_file st;
           newest_file :=
             if bool_decide (mtime > (newest_file st).2)%Z
             then (item, mtime) else newest_file st |}
  | None => None
  end
else if is_dir fs item then
  Some
    {| total_files := total_files st;
       total_dirs := S (total_dirs st);
       total_size := total_size st;
       file_types := file_types st;
       largest_file := largest_file st;
       oldest_file := oldest_file st;
       newest_file := newest_file st |}
else Some st.

Fixpoint stats_loop (fs : filesystem) (walk : list path) (st : stats) : option stats :=
match walk with
| [] => Some st
| item :: rest =>
    match stats_step fs st item with
    | Some st' => stats_loop fs rest st'
    | None => None
    end
end.

Inductive stats_result :=
| StatsNotExist                     (* "Directory ... does not exist." *)
| StatsReport (st : stats) (oldest_date newest_date : Z)
                                    (* "Directory Statistics for ..." *)
| StatsError.                       (* "Error calculating statistics: ..." *)

(** The body of [get_directory_statistics].  The report renders the totals,
  the ten largest buckets of [file_types] and the three records; the two
  dates go through [datetime.fromtimestamp] first. *)
Definition get_directory_statistics_with (in_range : Z → bool)
  (walker : filesystem → path → list path)
  (fs : filesystem) (directory : path) : stats_result :=
if negb (exists_ fs directory) then StatsNotExist
else
  match stats_loop fs (walker fs directory) initial_stats with
  | None => StatsError
  | Some st =>
      match fromtimestamp in_range (oldest_file st).2,
            fromtimestamp in_range (Finite (newest_file st).2) with
      | Some o, Some n => StatsReport st o n
      | _, _ => StatsError
      end
  end.

Definition get_directory_statistics (in_range : Z → bool)
  : filesystem → path → stats_result :=
get_directory_statistics_with in_range rglob.

End Statistics.

(** ** Observations used to state the properties *)

(** The sum of a measure over the values of a dictionary. *)
Definition map_sum {V} (f : V → nat) (m : gmap string V) : nat :=
  map_fold (λ _ v acc, f v + acc) 0 m.

(** A digest for examples: the bytes themselves, read as characters. *)
Definition toy_digest (data : list byte) : string :=
  String.string_of_list_ascii (Ascii.ascii_of_nat ∘ Byte.to_nat <$> data).

Definition plain_file (data : list byte) : node := File (FileData data true 0).
Definition locked_file (data : list byte) : node := File (FileData data false 0).

(** [docs/] with [a.txt] and [b.txt] of equal content, [c.txt] of another,
    an unreadable [d.txt], and a regular file [notes] next to it. *)
Definition docs_tree : filesystem :=
  list_to_map
    [ ([], Dir);
      (["docs"], Dir);
      (["docs"; "a.txt"], plain_file [x58; x58]);
      (["docs"; "b.txt"], plain_file [x58; x58]);
      (["docs"; "c.txt"], plain_file [x59]);
      (["docs"; "d.txt"], locked_file [x58; x58]);
      (["notes"], plain_file [x5a]) ]%string.

(** The groups a result reports, as (digest, members), and its count of
    scanned files. *)
Definition groups_reported (r : dup_result) : list (string * list path) :=
  match r with
  | DupFound gs _ => (λ g, (g.1.2, g.2)) <$> gs
  | _ => []
  end.

Definition scanned_reported (r : dup_result) : option nat :=
  match r with
  | DupNone n | DupFound _ n => Some n
  | _ => None
  end.

(** A directory [empty/] with nothing in it. *)
Definition empty_tree : filesystem :=
  list_to_map [ ([], Dir); (["empty"], Dir) ]%string.

(** [re.sub] for a pattern and a replacement without special characters:
    every occurrence, left to right and without overlap, is replaced. *)
Fixpoint replace_from (pat repl : string) (skip : nat) (s : string) : string :=
  match s with
  | EmptyString => EmptyString
  | String a s' =>
      match skip with
      | S k => replace_from pat repl k s'
      | O =>
          if String.prefix pat s
          then repl +:+ replace_from pat repl (String.length pat - 1) s'
          else String a (replace_from pat repl 0 s')
      end
  end.

Fixpoint interleave (repl s : string) : string :=
  match s with
  | EmptyString => repl
  | String a s' => repl +:+ String a (interleave repl s')
  end.

Definition literal_sub (pat repl s : string) : option string :=
  Some (if bool_decide (pat = "") then interleave repl s else replace_from pat repl 0 s).

(** [parent / new_name] for a name that is a single component. *)
Definition join_child (p : path) (nm : string) : path := p ++ [nm].

(** The file system a loop leaves behind, however it ends. *)
Definition outcome_fs (o : loop_outcome batch_state) : filesystem :=
  match o with
  | Continue st => batch_fs st
  | Raised fs => fs
  end.

(** [work/] with two drafts; the final version of the report is already
    there. *)
Definition work_tree : filesystem :=
  list_to_map
    [ ([], Dir);
      (["work"], Dir);
      (["work"; "report_draft.txt"], plain_file [x41]);
      (["work"; "report_final.txt"], plain_file [x42]);
      (["work"; "notes_draft.txt"], plain_file [x43]) ]%string.

(** [fs'] is [fs] with some directories added. *)
Definition adds_dirs (fs fs' : filesystem) : Prop :=
  fs ⊆ fs' ∧ ∀ q d, fs' !! q = Some (File d) → fs !! q = Some (File d).

(** The file system an [organize_files_by_type] loop leaves behind, if it
    ends. *)
Definition final_fs (o : org_outcome) : option filesystem :=
  match o with
  | Next st => Some (org_fs st)
  | Throw fs => Some fs
  | Spin => None
  end.

(** Where the iteration for [file_path] puts its copy, from file system
    [fs]; [None] when the iteration copies nothing. *)
Definition copy_destination (str_lower : string → string) (target_path : path)
    (fs : filesystem) (file_path : path) : option path :=
  if is_file fs file_path then
    let ext := str_lower (suffix file_path) in
    let category_dir := target_path ++ [find_category categories ext] in
    match mkdir fs category_dir false true with
    | Some fs1 =>
        match choose_destination fs1 category_dir file_path ext with
        | Some destination =>
            match copy2 fs1 file_path destination with
            | Some _ => Some destination
            | None => None
            end
        | None => None
        end
    | None => None
    end
  else None.


(** [dst] is a well-chosen destination for [src] given the entries of [fs]:
    in the directory of the category of [src], under the name of [src], or,
    that name being taken, under the stem followed by ["_"], a number [k] and
    the lower-cased extension, every smaller number from 1 on being taken. *)
Definition well_named (str_lower : string → string) (target_path : path)
    (fs : filesystem) (src dst : path) : Prop :=
  let ext := str_lower (suffix src) in
  let category_dir := target_path ++ [find_category categories ext] in
  dst = category_dir ++ [name src]
  ∨ is_Some (fs !! (category_dir ++ [name src]))
    ∧ ∃ k, 1 ≤ k
        ∧ dst = numbered category_dir (stem src) ext k
        ∧ ∀ j, 1 ≤ j < k → is_Some (fs !! numbered category_dir (stem src) ext j).


(** The same with lower-case names, all readable, and a picture. *)
Definition photos_tree : filesystem :=
  list_to_map
    [ ([], Dir);
      (["in"], Dir);
      (["in"; "a"], Dir);
      (["in"; "b"], Dir);
      (["in"; "c"], Dir);
      (["in"; "a"; "notes.txt"], plain_file [x41]);
      (["in"; "b"; "notes.txt"], plain_file [x42]);
      (["in"; "c"; "notes.txt"], plain_file [x43]);
      (["in"; "photo.png"], plain_file [x44]) ]%string.

(** What one iteration of [organize_files_by_type] does, with the
    destination of its copy if it makes one. *)
Inductive org_effect (str_lower : string → string) (target_path : path)
    (st : org_state) (f : path) : org_outcome → option path → Prop :=
  | org_not_file :
      is_file (org_fs st) f = false →
      org_effect str_lower target_path st f (Next st) None
  | org_throw :
      org_effect str_lower target_path st f (Throw (org_fs st)) None
  | org_copy_failed fs1 :
      adds_dirs (org_fs st) fs1 →
      (∀ d, org_fs st !! f = Some (File d) → readable d = false) →
      org_effect str_lower target_path st f (Next (OrgState fs1 (moved_files st))) None
  | org_copied fs1 d dst :
      adds_dirs (org_fs st) fs1 →
      org_fs st !! f = Some (File d) →
      readable d = true →
      fs1 !! dst = None →
      well_named str_lower target_path fs1 f dst →
      org_effect str_lower target_path st f
        (Next (OrgState (<[dst := File d]> fs1)
                 (bump (find_category categories (str_lower (suffix f))) (moved_files st))))
        (Some dst).

(** New files appear only two levels below the target directory. *)
Definition new_files_under (target : path) (fs fs' : filesystem) : Prop :=
  ∀ q d, fs' !! q = Some (File d) →
    fs !! q = Some (File d) ∨ ∃ category nm, q = target ++ [category; nm].


(** The run came to its end and reports its counts. *)
Definition completed (r : org_result) : bool :=
  match r with
  | OrgDone _ => true
  | _ => false
  end.

(** What an iteration of [batch_rename_files] can do: nothing, raise, or
    move one file to a free place. *)
Inductive step_effect (joinpath : path → string → path) (st : batch_state) (p : path)
  : loop_outcome batch_state → Prop :=
  | effect_skip : step_effect joinpath st p (Continue st)
  | effect_raise : step_effect joinpath st p (Raised (batch_fs st))
  | effect_rename d new_name :
      batch_fs st !! p = Some (File d) →
      batch_fs st !! joinpath (parent p) new_name = None →
      step_effect joinpath st p
        (Continue (BatchState (<[joinpath (parent p) new_name := File d]> (delete p (batch_fs st)))
                     (renamed_files st ++ [(name p, new_name)]))).

(** A recorded pair of [batch_rename_files] is justified by the substitution
    on a listed file that passed the extension filter. *)
Definition justified (re_sub : string → string → string → option string)
    (pattern replacement : string) (extensions : option (list string))
    (walk : list path) (pair : string * string) : Prop :=
  ∃ p, p ∈ walk ∧ name p = pair.1
     ∧ filtered_out extensions p = false
     ∧ re_sub pattern replacement pair.1 = Some pair.2
     ∧ pair.2 ≠ pair.1.

(** The number of regular files of a file system. *)
Definition is_file_node (nd : node) : Prop :=
  match nd with File _ => True | Dir => False end.

Global Instance is_file_node_dec nd : Decision (is_file_node nd).
Proof. destruct nd; apply _. Defined.

Definition count_files (fs : filesystem) : nat :=
  size (filter (λ kv, is_file_node kv.2) fs).

(** The counts are positive and stand under category names. *)
Definition counts_wf (moved : gmap string nat) : Prop :=
  ∀ c n, moved !! c = Some n → c ∈ categories.*1 ∧ 0 < n.

(** Size and modification time of an entry, as [stat] gives them. *)
Definition file_size (fs : filesystem) (p : path) : Z :=
  match stat fs p with Some s => st_size s | None => 0%Z end.

Definition file_mtime (fs : filesystem) (p : path) : Z :=
  match stat fs p with Some s => st_mtime s | None => 0%Z end.

(** The sizes of the regular files among [walk], added up. *)
Definition sum_sizes (fs : filesystem) (walk : list path) : Z :=
  foldr (λ p acc, (file_size fs p + acc)%Z) 0%Z (filter (λ p, is_file fs p = true) walk).

(** [data/] with files of different sizes and dates, and a folder. *)
Definition dated_tree : filesystem :=
  list_to_map
    [ ([], Dir);
      (["data"], Dir);
      (["data"; "a.log"], File (FileData [x41; x41; x41] true 100));
      (["data"; "b.log"], File (FileData [x42; x42; x42; x42; x42] true 50));
      (["data"; "sub"], Dir);
      (["data"; "sub"; "c.txt"], File (FileData [x43] true 200)) ]%string.

(** ** The single-entry tools: create_directory, delete_file_or_directory,
       list_directory, write_file, read_file *)

(** The process is taken to own the tree: it may make and remove entries
    anywhere.  What it may read is the [readable] flag of a file; what it
    may overwrite is [may_write] below. *)

(** Every entry other than the root sits in a directory. *)
Definition well_formed (fs : filesystem) : Prop :=
  ∀ p, is_Some (fs !! p) → p ≠ [] → fs !! parent p = Some Dir.

Inductive create_result :=
  | CreateOk          (* "Successfully created directory ..." *)
  | CreateError.      (* "Error creating directory: ..." *)

Definition create_directory (fs : filesystem) (dir_path : path)
  : create_result * filesystem :=
  match mkdir fs dir_path true true with
  | Some fs' => (CreateOk, fs')
  | None => (CreateError, fs)
  end.

(** [Path.unlink()] on a regular file. *)
Definition unlink (fs : filesystem) (p : path) : option filesystem :=
  match fs !! p with
  | Some (File _) => Some (delete p fs)
  | _ => None
  end.

(** [shutil.rmtree(p)]: the directory and everything below it goes. *)
Definition rmtree (fs : filesystem) (p : path) : option filesystem :=
  if is_dir fs p then Some (filter (λ kv, ¬ p `prefix_of` kv.1) fs) else None.

Inductive delete_result :=
  | DeleteNotExist    (* "Path ... does not exist." *)
  | DeletedFile       (* "Successfully deleted file ..." *)
  | DeletedDir        (* "Successfully deleted directory ... and all its contents." *)
  | DeleteNeither     (* "... is neither a file nor a directory." *)
  | DeleteError.      (* "Error deleting ..." *)

Definition delete_file_or_directory (fs : filesystem) (p : path)
  : delete_result * filesystem :=
  if negb (exists_ fs p) then (DeleteNotExist, fs)
  else if is_file fs p then
    match unlink fs p with
    | Some fs' => (DeletedFile, fs')
    | None => (DeleteError, fs)
    end
  else if is_dir fs p then
    match rmtree fs p with
    | Some fs' => (DeletedDir, fs')
    | None => (DeleteError, fs)
    end
  else (DeleteNeither, fs).

(** The two marks of [list_directory], as UTF-8. *)
Definition folder_mark : string := "📁".
Definition file_mark : string := "📄".

(** One line of the listing: mark, name and, for a regular file, its size. *)
Definition render_item (fs : filesystem) (item : path) : string :=
  (if is_dir fs item then folder_mark else file_mark) +:+ " " +:+ name item +:+
  (if is_file fs item then
     match stat fs item with
     | Some s => " (" +:+ str_of_nat (Z.to_nat (st_size s)) +:+ " bytes)"
     | None => " (unknown size)"
     end
   else "").

Inductive list_result :=
  | ListNotExist                      (* "Directory ... does not exist." *)
  | ListNotDir                        (* "... is not a directory." *)
  | ListEmpty                         (* "Directory ... is empty." *)
  | ListContents (lines : list string) (* "Contents of ...", the sorted lines *)
  | ListError.                        (* "Error listing directory: ..." *)

(** The body of [list_directory]; [sorted] orders strings by code point,
    which on UTF-8 is the order of the bytes. *)
Definition list_directory_with (lister : filesystem → path → option (list path))
    (fs : filesystem) (p : path) : list_result :=
  if negb (exists_ fs p) then ListNotExist
  else if negb (is_dir fs p) then ListNotDir
  else
    match lister fs p with
    | None => ListError
    | Some entries =>
        match render_item fs <$> entries with
        | [] => ListEmpty
        | items => ListContents (merge_sort String.le items)
        end
    end.

Definition list_directory : filesystem → path → list_result :=
  list_directory_with iterdir.

Section TextFiles.

(** Python text, with what the text layer of [open] does to it: [len],
    writing (encoding as UTF-8, with the line ends of the platform; [None]
    is [UnicodeEncodeError], as for a lone surrogate) and reading
    (decoding, with universal newlines; [None] is [UnicodeDecodeError]).
    [mimetypes.guess_type] is a table of the library; only the type it
    returns is used. *)
Context {text : Type}.
Variable text_len : text → nat.
Variable encode_text : text → option (list byte).
Variable decode_text : list byte → option text.
Variable guess_type : path → option string.

(** Whether the process may open a file that is there for writing; the
    permission to read is [readable], and the two are independent. *)
Variable may_write : file_data → bool.

(** [open(p, 'w')]: the file that is there is emptied, its permissions
    staying as they are, or a new, empty regular file is made in a
    directory that is there. *)
Definition open_w (now : Z) (fs : filesystem) (p : path) : option filesystem :=
  match fs !! p with
  | Some Dir => None
  | Some (File d) =>
      if may_write d then Some (<[p := File (FileData [] (readable d) now)]> fs)
      else None
  | None =>
      if is_dir fs (parent p) then Some (<[p := File (FileData [] true now)]> fs)
      else None
  end.

(** Writing [data] to the open file and closing it. *)
Definition write_data (fs : filesystem) (p : path) (data : list byte) : filesystem :=
  match fs !! p with
  | Some (File d) => <[p := File (FileData data (readable d) (mtime d))]> fs
  | _ => fs
  end.

Inductive write_result :=
  | WriteOk (characters : nat)     (* "Successfully wrote n characters to ..." *)
  | WriteError.                    (* "Error writing file: ..." *)

(** [write_file] at time [now].  The file is opened, and so made or
    emptied, before [f.write] encodes the text. *)
Definition write_file (now : Z) (fs : filesystem) (file_path : path) (content : text)
  : write_result * filesystem :=
  match mkdir fs (parent file_path) true true with
  | None => (WriteError, fs)
  | Some fs1 =>
      match open_w now fs1 file_path with
      | None => (WriteError, fs1)
      | Some fs2 =>
          match encode_text content with
          | None => (WriteError, fs2)
          | Some data => (WriteOk (text_len content), write_data fs2 file_path data)
          end
      end
  end.

Inductive read_result :=
  | ReadNotExist                   (* "File ... does not exist." *)
  | ReadNotFile                    (* "... is not a file." *)
  | ReadTooLarge                   (* "... is too large (>1MB) to read." *)
  | ReadBinary (mime : string)     (* "... appears to be a binary file." *)
  | ReadOk (content : text)        (* "Contents of ..." *)
  | ReadEncoding                   (* "... cannot be read as text (encoding issue)." *)
  | ReadError.                     (* "Error reading file: ..." *)

(** [mime_type and not mime_type.startswith('text/')] *)
Definition binary_type (mime : option string) : option string :=
  match mime with
  | Some m =>
      if negb (bool_decide (m = "")) && negb (String.prefix "text/" m) then Some m else None
  | None => None
  end.

Definition read_file (fs : filesystem) (file_path : path) : read_result :=
  if negb (exists_ fs file_path) then ReadNotExist
  else if negb (is_file fs file_path) then ReadNotFile
  else
    match stat fs file_path with
    | None => ReadError
    | Some s =>
        if bool_decide (st_size s > 1024 * 1024)%Z then ReadTooLarge
        else
          match binary_type (guess_type file_path) with
          | Some m => ReadBinary m
          | None =>
              match read_bytes fs file_path with
              | None => ReadError
              | Some data =>
                  match decode_text data with
                  | Some content => ReadOk content
                  | None => ReadEncoding
                  end
              end
          end
    end.

End TextFiles.

(** ** search_files_by_content *)

Section Text.

(** Python text as a sequence of characters (code points). *)
Context {char : Type} `{EqDecision char}.

(** [needle in hay] *)
Fixpoint contains (needle hay : list char) : bool :=
  match hay with
  | [] => bool_decide (needle = [])
  | _ :: hay' => bool_decide (needle `prefix_of` hay) || contains needle hay'
  end.

(** [hay.count(needle)]: occurrences from left to right that do not
    overlap; for the empty needle, one more than the length. *)
Fixpoint count_from (needle : list char) (skip : nat) (hay : list char) : nat :=
  match hay with
  | [] => 0
  | _ :: hay' =>
      match skip with
      | S k => count_from needle k hay'
      | O =>
          if bool_decide (needle `prefix_of` hay)
          then S (count_from needle (length needle - 1) hay')
          else count_from needle 0 hay'
      end
  end.

Definition count (needle hay : list char) : nat :=
  if bool_decide (needle = []) then S (length hay) else count_from needle 0 hay.

End Text.

Inductive search_result :=
  | SearchNotExist                               (* "Directory ... does not exist." *)
  | SearchNone                                   (* "No files containing ... found ..." *)
  | SearchFound (results : list (path * nat))    (* "Found n file(s) containing ..." *)
  | SearchError.                                 (* "Error searching files: ..." *)

Section Search.

(** [open(..., encoding='utf-8', errors='ignore').read()], which drops what
    does not decode, and [str.lower()]. *)
Context {char : Type} `{EqDecision char}.
Variable decode_ignore : list byte → list char.
Variable str_lower : list char → list char.

Definition search_step (fs : filesystem) (extensions : list string)
    (search_term : list char) (results : list (path * nat)) (file_path : path)
  : list (path * nat) :=
  if is_file fs file_path && bool_decide (suffix file_path ∈ extensions) then
    match read_bytes fs file_path with
    | Some data =>
        let content := decode_ignore data in
        if contains (str_lower search_term) (str_lower content)
        then results ++ [(file_path, count (str_lower search_term) (str_lower content))]
        else results
    | None => results
    end
  else results.

(** The body of [search_files_by_content]; without [file_extensions] the
    call to [split] raises. *)
Definition search_files_by_content_with (walker : filesystem → path → list path)
    (fs : filesystem) (directory : path) (search_term : list char)
    (file_extensions : option string) : search_result :=
  if negb (exists_ fs directory) then SearchNotExist
  else
    match file_extensions with
    | None => SearchError
    | Some s =>
        let extensions := strip <$> split_on "," s in
        match foldl (search_step fs extensions search_term) [] (walker fs directory) with
        | [] => SearchNone
        | results => SearchFound results
        end
    end.

Definition search_files_by_content := search_files_by_content_with rglob.

End Search.


(** [notes/] with three texts and a picture. *)
Definition notes_tree : filesystem :=
  list_to_map
    [ ([], Dir);
      (["notes"], Dir);
      (["notes"; "todo.txt"], plain_file [x42; x75; x79; x20; x6d; x69; x6c; x6b]);
      (["notes"; "log.md"], plain_file [x6d; x69; x6c; x6b; x20; x4d; x49; x4c; x4b]);
      (["notes"; "secret.txt"], locked_file [x6d; x69; x6c; x6b]);
      (["notes"; "cat.png"], plain_file [x6d; x69; x6c; x6b]);
      (["notes"; "old"], Dir) ]%string.

(** Bytes read as characters, one for one. *)
Definition latin_text (data : list byte) : string :=
  String.string_of_list_byte data.



(** Characters written as bytes, one for one; characters above 127 do not
    encode. *)
Definition ascii_bytes (s : string) : option (list byte) :=
  if forallb (λ a, Ascii.nat_of_ascii a <? 128) (String.list_ascii_of_string s)
  then Some (String.list_byte_of_string s) else None.

(** ** Sums over dictionaries *)

Lemma map_sum_empty {V} (f : V → nat) : map_sum f ∅ = 0.
Proof. unfold map_sum. by rewrite map_fold_empty. Qed.

Lemma map_sum_insert_fresh {V} (f : V → nat) (m : gmap string V) k v :
  m !! k = None → map_sum f (<[k := v]> m) = f v + map_sum f m.
Proof.
  intros Hk. unfold map_sum.
  rewrite map_fold_insert_L; [done| |done]. intros; lia.
Qed.

(** Replacing the value under a key moves the sum by the difference. *)
Lemma map_sum_insert {V} (f : V → nat) (m : gmap string V) k v :
  map_sum f (<[k := v]> m) + from_option f 0 (m !! k) = f v + map_sum f m.
Proof.
  destruct (m !! k) as [old|] eqn:Hk; simpl.
  - rewrite <-(insert_delete_eq m), map_sum_insert_fresh by apply lookup_delete_eq.
    rewrite <-(insert_id m k old) at 2 by done.
    rewrite <-(insert_delete_eq m k old), map_sum_insert_fresh by apply lookup_delete_eq.
    lia.
  - rewrite map_sum_insert_fresh by done. lia.
Qed.

Lemma map_sum_bump (m : gmap string nat) k :
  map_sum id (bump k m) = S (map_sum id m).
Proof.
  unfold bump. pose proof (map_sum_insert id m k (S (default 0 (m !! k)))) as H.
  destruct (m !! k); simpl in *; lia.
Qed.

(** ** Properties of find_duplicate_files *)

Section FindDuplicatesFacts.

Context {md5_state : Type}.
Variable md5_new : md5_state.
Variable md5_update : md5_state → list byte → md5_state.
Variable md5_hexdigest : md5_state → string.

Lemma get_file_hash_readable fs p d :
  fs !! p = Some (File d) → readable d = true →
  get_file_hash md5_new md5_update md5_hexdigest fs p
  = Some (md5_hexdigest
            (foldl md5_update md5_new (read_chunks (length (content d)) (content d)))).
Proof. intros Hp Hr. unfold get_file_hash, read_bytes. by rewrite Hp, Hr. Qed.


Local Abbreviation get_file_hash := (get_file_hash md5_new md5_update md5_hexdigest).
Local Abbreviation dup_step := (dup_step md5_new md5_update md5_hexdigest).
Local Abbreviation dup_scan := (dup_scan md5_new md5_update md5_hexdigest).
Local Abbreviation find_duplicate_files_with :=
  (find_duplicate_files_with md5_new md5_update md5_hexdigest).
Local Abbreviation filed_under := (filed_under md5_new md5_update md5_hexdigest).
Local Abbreviation unhashed := (unhashed md5_new md5_update md5_hexdigest).

Lemma is_file_stat fs p :
  is_file fs p = true → ∃ d, fs !! p = Some (File d) ∧
    stat fs p = Some (StatResult (Z.of_nat (length (content d))) (mtime d)).
Proof.
  unfold is_file, stat. destruct (fs !! p) as [[d|]|]; try discriminate.
  intros _. by exists d.
Qed.


Lemma bucket_append_to h k p m :
  bucket (append_to k p m) h = bucket m h ++ (if decide (k = h) then [p] else []).
Proof.
  unfold bucket, append_to. destruct (decide (k = h)) as [->|Hne].
  - by rewrite lookup_insert_eq.
  - rewrite lookup_insert_ne by done. by rewrite app_nil_r.
Qed.

Lemma dup_step_bucket fs min_size st p h :
  bucket (file_hashes (dup_step fs min_size st p)) h
  = bucket (file_hashes st) h ++ filter (filed_under fs min_size h) [p].
Proof.
  unfold dup_step. rewrite filter_cons, filter_nil.
  destruct (decide (filed_under fs min_size h p)) as [[Hm Hh]|Hn].
  - unfold meets_threshold in Hm. apply andb_prop in Hm as [Hf Hs].
    rewrite Hf. destruct (stat fs p) as [s|]; [|done].
    rewrite Hs, Hh. simpl. rewrite bucket_append_to.
    by destruct (decide (h = h)).
  - unfold filed_under, meets_threshold in Hn.
    destruct (is_file fs p); simpl in *; [|by rewrite app_nil_r].
    destruct (stat fs p) as [s|]; [|by rewrite app_nil_r].
    case_bool_decide; [|by rewrite app_nil_r].
    destruct (get_file_hash fs p) as [k|] eqn:Hk; simpl; [|by rewrite app_nil_r].
    rewrite bucket_append_to. destruct (decide (k = h)) as [->|]; [|done].
    by destruct Hn.
Qed.


Lemma foldl_dup_step_bucket fs min_size walk st h :
  bucket (file_hashes (foldl (dup_step fs min_size) st walk)) h
  = bucket (file_hashes st) h ++ filter (filed_under fs min_size h) walk.
Proof.
  revert st. induction walk as [|p walk IH]; intros st; simpl.
  - by rewrite app_nil_r.
  - rewrite IH, dup_step_bucket, <-app_assoc. by rewrite <-filter_app.
Qed.

Lemma dup_step_no_empty fs min_size st p :
  no_empty_bucket (file_hashes st) →
  no_empty_bucket (file_hashes (dup_step fs min_size st p)).
Proof.
  intros Hinv. unfold dup_step.
  destruct (is_file fs p); [|done].
  destruct (stat fs p); [|done].
  case_bool_decide; [|done].
  destruct (get_file_hash fs p) as [k|]; [|done].
  simpl. intros h l. unfold append_to.
  destruct (decide (k = h)) as [->|Hne].
  - rewrite lookup_insert_eq. intros [= <-]. by destruct (default _ _).
  - rewrite lookup_insert_ne by done. apply Hinv.
Qed.

Lemma foldl_dup_step_no_empty fs min_size walk st :
  no_empty_bucket (file_hashes st) →
  no_empty_bucket (file_hashes (foldl (dup_step fs min_size) st walk)).
Proof.
  revert st. induction walk as [|p walk IH]; intros st Hinv; simpl; [done|].
  apply IH. by apply dup_step_no_empty.
Qed.


(** The dictionary after the scan, key by key. *)
Lemma dup_scan_lookup fs min_size walk h l :
  file_hashes (dup_scan fs min_size walk) !! h = Some l
  ↔ l = filter (filed_under fs min_size h) walk ∧ l ≠ [].
Proof.
  pose proof (foldl_dup_step_bucket fs min_size walk (DupState ∅ 0) h) as Hb.
  pose proof (foldl_dup_step_no_empty fs min_size walk (DupState ∅ 0)) as Hne.
  fold (dup_scan fs min_size walk) in Hb, Hne.
  unfold bucket in Hb. simpl in Hb. rewrite lookup_empty in Hb. simpl in Hb.
  split.
  - intros Hl. rewrite Hl in Hb. simpl in Hb. split; [done|].
    eapply Hne; [|done]. intros ?? Hx. simpl in Hx. by rewrite lookup_empty in Hx.
  - intros [-> Hl]. destruct (file_hashes _ !! h) as [l'|]; simpl in Hb.
    + by rewrite Hb.
    + by rewrite <-Hb in Hl.
Qed.

Lemma duplicates_lookup fs min_size walk h l :
  duplicates_of (file_hashes (dup_scan fs min_size walk)) !! h = Some l
  ↔ l = filter (filed_under fs min_size h) walk ∧ 1 < length l.
Proof.
  unfold duplicates_of. rewrite map_lookup_filter_Some. simpl.
  rewrite dup_scan_lookup. split.
  - intros [[-> _] Hlen]. done.
  - intros [-> Hlen]. split; [split; [done|]|done].
    intros Hnil. rewrite Hnil in Hlen. simpl in Hlen. lia.
Qed.

Lemma filed_under_is_file fs min_size h p :
  filed_under fs min_size h p → is_file fs p = true.
Proof. intros [Hm _]. unfold meets_threshold in Hm. by apply andb_prop in Hm as [? _]. Qed.

(** The report loop cannot fail on groups whose first member is a file. *)
Lemma render_groups_ok fs (gs : list (string * list path)) :
  Forall (λ g, ∃ first rest, g.2 = first :: rest ∧ is_file fs first = true) gs →
  ∃ out, render_groups fs gs = Some out ∧ (λ g, (g.1.2, g.2)) <$> out = gs.
Proof.
  induction 1 as [|[h files] gs (first & rest & Hfiles & Hfile) _ (out & Hout & Hmap)].
  - by exists [].
  - simpl in *. subst files.
    destruct (is_file_stat _ _ Hfile) as (d & _ & ->). rewrite Hout.
    eexists. split; [done|]. rewrite fmap_cons. simpl. by f_equal.
Qed.

(** What a call on an existing path reports: the groups are the entries of
    the filtered dictionary, the count is [total_files]. *)
Lemma find_duplicates_observed walker fs directory min_size :
  exists_ fs directory = true →
  let st := dup_scan fs min_size (walker fs directory) in
  let r := find_duplicate_files_with walker fs directory min_size in
  groups_reported r = map_to_list (duplicates_of (file_hashes st))
  ∧ scanned_reported r = Some (total_files st).
Proof.
  intros Hex. unfold find_duplicate_files_with. rewrite Hex. simpl.
  case_bool_decide as Hempty.
  - rewrite Hempty, map_to_list_empty. done.
  - destruct (render_groups_ok fs
      (map_to_list (duplicates_of (file_hashes (dup_scan fs min_size (walker fs directory))))))
      as (out & -> & Hmap); [|done].
    apply Forall_forall. intros [h files] Hin.
    apply elem_of_map_to_list, duplicates_lookup in Hin as [Hfiles Hlen].
    simpl. destruct files as [|first rest]; [simpl in Hlen; lia|].
    exists first, rest. split; [done|].
    assert (first ∈ filter (filed_under fs min_size h) (walker fs directory)) as Hf
      by (rewrite <-Hfiles; left).
    apply list_elem_of_filter in Hf as [Hf _]. by eapply filed_under_is_file.
Qed.

Lemma groups_reported_elem walker fs directory min_size h files :
  exists_ fs directory = true →
  (h, files) ∈ groups_reported (find_duplicate_files_with walker fs directory min_size)
  ↔ files = filter (filed_under fs min_size h) (walker fs directory) ∧ 1 < length files.
Proof.
  intros Hex.
  destruct (find_duplicates_observed walker fs directory min_size Hex) as [-> _].
  by rewrite elem_of_map_to_list, duplicates_lookup.
Qed.

Lemma groups_reported_not_exist walker fs directory min_size :
  exists_ fs directory = false →
  groups_reported (find_duplicate_files_with walker fs directory min_size) = [].
Proof. intros Hex. unfold find_duplicate_files_with. by rewrite Hex. Qed.




Lemma meets_threshold_spec fs min_size p :
  meets_threshold fs min_size p = true
  ↔ ∃ d, fs !! p = Some (File d) ∧ (Z.of_nat (length (content d)) >= min_size)%Z.
Proof.
  unfold meets_threshold, is_file, stat. split.
  - destruct (fs !! p) as [[d|]|]; simpl; try discriminate.
    intros H%bool_decide_eq_true_1. by exists d.
  - intros (d & -> & Hs). simpl. by apply bool_decide_eq_true_2.
Qed.




(** C6. Every reported group has at least two members, and the digest of
    every member is the digest the group is reported under. *)
Theorem reported_groups_two_members_one_digest walker fs directory min_size :
  Forall (λ g, 2 ≤ length g.2 ∧ Forall (λ f, get_file_hash fs f = Some g.1) g.2)
    (groups_reported (find_duplicate_files_with walker fs directory min_size)).
Proof.
  destruct (exists_ fs directory) eqn:Hex.
  - apply Forall_forall. intros [h files] [Hfiles Hlen]%groups_reported_elem; [|done].
    simpl. split; [lia|]. apply Forall_forall. intros f Hf.
    rewrite Hfiles in Hf. by apply list_elem_of_filter in Hf as [[_ Hh] _].
  - rewrite groups_reported_not_exist by done. constructor.
Qed.



End FindDuplicatesFacts.

(** *** The properties on [docs_tree], with the digest of the examples *)




(** On [docs_tree] the call reports the one group of [a.txt] and [b.txt]
    and four scanned files, one of which ([d.txt]) is in no bucket. *)
Example find_duplicates_docs_tree :
  find_duplicate_files [] app toy_digest docs_tree ["docs"%string] 0
  = DupFound [(2%Z, "XX"%string, [["docs"; "b.txt"]; ["docs"; "a.txt"]]%string)] 4
  ∧ map_sum length
      (file_hashes (dup_scan [] app toy_digest docs_tree 0 (rglob docs_tree ["docs"%string])))
    = 3.
Proof. split; vm_compute; reflexivity. Qed.

(** ** Properties of get_directory_statistics *)

Lemma stats_step_total fs st item :
  ∃ st', Statistics.stats_step fs st item = Some st'.
Proof.
  unfold Statistics.stats_step. destruct (is_file fs item) eqn:Hf.
  - unfold is_file in Hf. unfold stat.
    destruct (fs !! item) as [[d|]|]; try discriminate. eauto.
  - destruct (is_dir fs item); eauto.
Qed.

Lemma stats_step_histogram fs st st' item :
  Statistics.stats_step fs st item = Some st' →
  Statistics.total_files st = map_sum id (Statistics.file_types st) →
  Statistics.total_files st' = map_sum id (Statistics.file_types st').
Proof.
  unfold Statistics.stats_step. intros Hstep Hinv.
  destruct (is_file fs item).
  - destruct (stat fs item); [|done]. injection Hstep as <-. simpl.
    by rewrite map_sum_bump, Hinv.
  - destruct (is_dir fs item); injection Hstep as <-; done.
Qed.

Lemma stats_loop_histogram fs walk st :
  Statistics.total_files st = map_sum id (Statistics.file_types st) →
  ∃ st', Statistics.stats_loop fs walk st = Some st'
       ∧ Statistics.total_files st' = map_sum id (Statistics.file_types st').
Proof.
  revert st. induction walk as [|item walk IH]; intros st Hinv; simpl; [eauto|].
  destruct (stats_step_total fs st item) as [st1 Hst1]. rewrite Hst1.
  apply IH. by eapply stats_step_histogram.
Qed.

(** C9. The pass over the tree always completes, and in the statistics it
    leaves [total_files] is the sum of the counts of all buckets of
    [file_types] (the bucket of a file without extension is the key
    "No extension"); a report carries exactly these statistics. *)
Theorem total_files_is_histogram_sum in_range walker fs directory :
  exists_ fs directory = true →
  ∃ st, Statistics.stats_loop fs (walker fs directory) Statistics.initial_stats = Some st
      ∧ Statistics.total_files st = map_sum id (Statistics.file_types st)
      ∧ (Statistics.get_directory_statistics_with in_range walker fs directory
         = Statistics.StatsError
         ∨ ∃ o n, Statistics.get_directory_statistics_with in_range walker fs directory
                  = Statistics.StatsReport st o n).
Proof.
  intros Hex.
  destruct (stats_loop_histogram fs (walker fs directory) Statistics.initial_stats)
    as (st & Hloop & Hsum).
  { simpl. by rewrite map_sum_empty. }
  exists st. split; [done|]. split; [done|].
  unfold Statistics.get_directory_statistics_with. rewrite Hex, Hloop. simpl.
  repeat case_match; eauto.
Qed.

Lemma total_files_is_histogram_sum_witness :
  ∃ st, Statistics.stats_loop docs_tree (rglob docs_tree ["docs"%string])
          Statistics.initial_stats = Some st
      ∧ Statistics.total_files st = map_sum id (Statistics.file_types st)
      ∧ (Statistics.get_directory_statistics_with calendar_range rglob docs_tree
           ["docs"%string]
         = Statistics.StatsError
         ∨ ∃ o n, Statistics.get_directory_statistics_with calendar_range rglob docs_tree
                    ["docs"%string]
                  = Statistics.StatsReport st o n).
Proof.
  apply (total_files_is_histogram_sum calendar_range rglob docs_tree ["docs"%string]).
  vm_compute. reflexivity.
Defined.

(** On [docs_tree] a report is returned: four files, all in the [.txt]
    bucket. *)
Example statistics_docs_tree :
  ∃ st o n, Statistics.get_directory_statistics calendar_range docs_tree ["docs"%string]
            = Statistics.StatsReport st o n
          ∧ Statistics.total_files st = 4
          ∧ Statistics.file_types st = {[ ".txt"%string := 4 ]}.
Proof.
  eexists _, _, _. split; [vm_compute; reflexivity|]. split; [reflexivity|].
  apply map_eq. intros k. vm_compute. reflexivity.
Qed.

Lemma stats_loop_no_files fs walk st :
  (∀ p, p ∈ walk → is_file fs p = false) →
  ∃ st', Statistics.stats_loop fs walk st = Some st'
       ∧ Statistics.total_files st' = Statistics.total_files st
       ∧ Statistics.oldest_file st' = Statistics.oldest_file st.
Proof.
  revert st. induction walk as [|item walk IH]; intros st Hnone; simpl; [eauto|].
  unfold Statistics.stats_step. rewrite (Hnone item) by left.
  destruct (is_dir fs item).
  - destruct (IH (Statistics.Stats (Statistics.total_files st)
                    (S (Statistics.total_dirs st)) (Statistics.total_size st)
                    (Statistics.file_types st) (Statistics.largest_file st)
                    (Statistics.oldest_file st) (Statistics.newest_file st)))
      as (st' & -> & ? & ?); [intros; apply Hnone; by right|]. eauto.
  - apply IH. intros; apply Hnone; by right.
Qed.

(** Whatever the tree, a call that meets no regular file ends with the
    error message. *)
Lemma statistics_without_files in_range walker fs directory :
  exists_ fs directory = true →
  (∀ p, p ∈ walker fs directory → is_file fs p = false) →
  Statistics.get_directory_statistics_with in_range walker fs directory
  = Statistics.StatsError.
Proof.
  intros Hex Hnone. unfold Statistics.get_directory_statistics_with. rewrite Hex. simpl.
  destruct (stats_loop_no_files fs (walker fs directory) Statistics.initial_stats Hnone)
    as (st' & -> & _ & Hold).
  by rewrite Hold.
Qed.

(** In the whole of [docs_tree] the file [notes], which has no extension,
    is counted under the key "No extension". *)
Example statistics_no_extension_bucket :
  ∃ st o n, Statistics.get_directory_statistics calendar_range docs_tree []
            = Statistics.StatsReport st o n
          ∧ Statistics.total_files st = 5
          ∧ Statistics.file_types st !! "No extension"%string = Some 1
          ∧ Statistics.file_types st !! ".txt"%string = Some 4.
Proof.
  eexists _, _, _. split; [vm_compute; reflexivity|]. repeat split; vm_compute; reflexivity.
Qed.

(** C3 (the code at an empty directory).  The pass leaves the three totals
    at zero and the histogram empty, but the three records stay at their
    initial sentinels: an empty path with size 0, with time stamp infinity
    and with time stamp 0.  Rendering the oldest record then fails on the
    infinite time stamp, so the call answers with the error message and
    reports neither the totals nor a "no data" state. *)
Theorem statistics_of_empty_directory (in_range : Z → bool) :
  Statistics.stats_loop empty_tree (rglob empty_tree ["empty"%string]) Statistics.initial_stats
  = Some Statistics.initial_stats
  ∧ Statistics.largest_file Statistics.initial_stats = ([], 0%Z)
  ∧ Statistics.oldest_file Statistics.initial_stats = ([], PosInf)
  ∧ Statistics.newest_file Statistics.initial_stats = ([], 0%Z)
  ∧ Statistics.get_directory_statistics in_range empty_tree ["empty"%string]
    = Statistics.StatsError.
Proof. repeat split; vm_compute; reflexivity. Qed.

(** ** Properties of batch_rename_files *)

Section BatchRenameFacts.

Variable re_sub : string → string → string → option string.
Variable joinpath : path → string → path.
Variables (pattern replacement : string) (extensions : option (list string)).

Local Abbreviation step := (batch_step re_sub joinpath pattern replacement extensions).
Local Abbreviation loop := (batch_loop re_sub joinpath pattern replacement extensions).

Lemma batch_step_effect st p : step_effect joinpath st p (step st p).
Proof.
  unfold batch_step. destruct (is_file (batch_fs st) p); [|constructor].
  destruct (filtered_out extensions p); [constructor|].
  destruct (re_sub pattern replacement (name p)) as [new_name|]; [|constructor].
  case_bool_decide; [|constructor].
  destruct (exists_ (batch_fs st) (joinpath (parent p) new_name)) eqn:Hex; [constructor|].
  unfold rename. destruct (batch_fs st !! p) as [[d|]|] eqn:Hp; try constructor.
  destruct (is_dir _ _); [constructor|].
  destruct (is_dir _ _); [|constructor].
  apply effect_rename; [done|].
  unfold exists_ in Hex. by destruct (batch_fs st !! joinpath (parent p) new_name).
Qed.

Lemma batch_step_size st p : size (outcome_fs (step st p)) = size (batch_fs st).
Proof.
  destruct (batch_step_effect st p) as [| |d new_name Hp Hdst]; simpl; try done.
  rewrite map_size_insert_None.
  - rewrite map_size_delete_Some by eauto.
    assert (size (batch_fs st) ≠ 0); [|lia].
    apply map_size_ne_0_lookup. eauto.
  - destruct (decide (p = joinpath (parent p) new_name)) as [<-|Hne].
    + apply lookup_delete_eq.
    + by rewrite lookup_delete_ne.
Qed.

Lemma batch_step_frame st p q :
  q ≠ p → is_Some (batch_fs st !! q) →
  outcome_fs (step st p) !! q = batch_fs st !! q.
Proof.
  intros Hne Hq. destruct (batch_step_effect st p) as [| |d new_name Hp Hdst]; simpl; try done.
  rewrite lookup_insert_ne, lookup_delete_ne; [done..|].
  intros <-. rewrite Hdst in Hq. by destruct Hq.
Qed.

Lemma batch_step_pairs st st' p o n :
  step st p = Continue st' → (o, n) ∈ renamed_files st' →
  (o, n) ∈ renamed_files st ∨ o = name p.
Proof.
  intros Hstep Hin. destruct (batch_step_effect st p) as [| |d new_name Hp Hdst].
  - injection Hstep as <-. by left.
  - done.
  - injection Hstep as <-. simpl in Hin.
    apply elem_of_app in Hin as [Hin|Hin]; [by left|].
    apply list_elem_of_singleton in Hin. right. congruence.
Qed.

Lemma batch_loop_size walk st : size (outcome_fs (loop walk st)) = size (batch_fs st).
Proof.
  revert st. induction walk as [|p walk IH]; intros st; simpl; [done|].
  pose proof (batch_step_size st p) as Hs.
  destruct (step st p) as [st1|fs1]; simpl in *; [|done].
  by rewrite IH.
Qed.

Lemma batch_loop_frame walk st q :
  q ∉ walk → is_Some (batch_fs st !! q) →
  outcome_fs (loop walk st) !! q = batch_fs st !! q.
Proof.
  revert st. induction walk as [|p walk IH]; intros st Hq Hsome; simpl; [done|].
  apply not_elem_of_cons in Hq as [Hne Hq].
  pose proof (batch_step_frame st p q Hne Hsome) as Hs.
  destruct (step st p) as [st1|fs1]; simpl in *; [|done].
  rewrite IH, Hs; [done..|]. by rewrite Hs.
Qed.

Lemma batch_loop_pairs walk st st' o n :
  loop walk st = Continue st' → (o, n) ∈ renamed_files st' →
  (o, n) ∈ renamed_files st ∨ o ∈ name <$> walk.
Proof.
  revert st. induction walk as [|p walk IH]; intros st Hloop Hin; simpl in *.
  - injection Hloop as <-. by left.
  - destruct (step st p) as [st1|fs1] eqn:Hstep; [|done].
    destruct (IH st1 Hloop Hin) as [Hold|Hnew].
    + destruct (batch_step_pairs _ _ _ _ _ Hstep Hold) as [Hx | ->]; [by left|].
      right. left.
    + right. by right.
Qed.

Lemma batch_loop_app pre post st :
  loop (pre ++ post) st
  = match loop pre st with
    | Continue st1 => loop post st1
    | Raised fs => Raised fs
    end.
Proof.
  revert st. induction pre as [|p pre IH]; intros st; simpl; [done|].
  destruct (step st p); [apply IH|done].
Qed.

(** A file whose new name is taken is passed over. *)
Lemma batch_step_taken st f new_name :
  re_sub pattern replacement (name f) = Some new_name →
  exists_ (batch_fs st) (joinpath (parent f) new_name) = true →
  step st f = Continue st.
Proof.
  intros Hsub Hex. unfold batch_step.
  destruct (is_file _ _); [|done]. destruct (filtered_out _ _); [done|].
  rewrite Hsub. case_bool_decide; [|done]. by rewrite Hex.
Qed.

End BatchRenameFacts.

Lemma iterdir_names_NoDup fs root walk :
  iterdir fs root = Some walk → NoDup (name <$> walk).
Proof.
  unfold iterdir. destruct (is_dir fs root); [|done]. intros [= <-].
  apply NoDup_fmap_2_strong.
  - intros p q [[Hp Hpr] _]%list_elem_of_filter [[Hq Hqr] _]%list_elem_of_filter Hname.
    assert (∀ x : path, parent x = root → x ≠ root → x = root ++ [name x]) as Hsplit.
    { intros x Hx Hxr. destruct x as [|a x]; [by destruct Hxr; rewrite <-Hx|].
      unfold parent, name in *. rewrite <-Hx. by apply app_removelast_last. }
    rewrite (Hsplit p Hp Hpr), (Hsplit q Hq Hqr). by rewrite Hname.
  - apply NoDup_filter, NoDup_fst_map_to_list.
Qed.

(** C5. A file whose computed new name exists in the directory at the time
    the file is reached is passed over: the file system is the same after
    its iteration, the file keeps its place and its data until the end of
    the call, and no pair for it is in the list of applied renamings.  And
    no renaming overwrites: the call leaves the file system with as many
    entries as it found, also when it ends with an error. *)
Theorem batch_rename_never_overwrites re_sub joinpath lister fs directory
    pattern replacement file_extensions pre f post st1 new_name :
  exists_ fs directory = true →
  lister fs directory = Some (pre ++ f :: post) →
  NoDup (name <$> pre ++ f :: post) →
  batch_loop re_sub joinpath pattern replacement (parse_extensions file_extensions)
    pre (BatchState fs []) = Continue st1 →
  is_file (batch_fs st1) f = true →
  re_sub pattern replacement (name f) = Some new_name →
  exists_ (batch_fs st1) (joinpath (parent f) new_name) = true →
  let out := batch_rename_files_with re_sub joinpath lister fs directory
               pattern replacement file_extensions in
  batch_step re_sub joinpath pattern replacement (parse_extensions file_extensions) st1 f
  = Continue st1
  ∧ out.2 !! f = batch_fs st1 !! f
  ∧ (∀ pairs n, out.1 = BatchRenamed pairs → (name f, n) ∉ pairs)
  ∧ size out.2 = size fs.
Proof.
  intros Hex Hlist Hnodup Hpre Hfile Hsub Htaken out.
  pose proof (batch_step_taken re_sub joinpath pattern replacement
                (parse_extensions file_extensions) st1 f new_name Hsub Htaken) as Hstep.
  split; [done|].
  set (walk := pre ++ f :: post) in *.
  set (extensions := parse_extensions file_extensions) in *.
  assert (batch_loop re_sub joinpath pattern replacement extensions walk (BatchState fs [])
          = batch_loop re_sub joinpath pattern replacement extensions post st1) as Hwalk.
  { unfold walk. rewrite batch_loop_app, Hpre. simpl. by rewrite Hstep. }
  assert (out = match batch_loop re_sub joinpath pattern replacement extensions post st1 with
                | Continue st =>
                    (match renamed_files st with
                     | [] => BatchNoMatch
                     | pairs => BatchRenamed pairs
                     end, batch_fs st)
                | Raised fs' => (BatchError, fs')
                end) as Hout.
  { unfold out, batch_rename_files_with. rewrite Hex, Hlist. simpl.
    fold extensions. fold walk. by rewrite Hwalk. }
  assert (out.2 = outcome_fs (batch_loop re_sub joinpath pattern replacement extensions post st1))
    as Hfs.
  { rewrite Hout. by destruct (batch_loop _ _ _ _ _ post st1). }
  apply NoDup_fmap_1 in Hnodup as Hpaths.
  unfold walk in Hnodup, Hpaths.
  rewrite fmap_app, fmap_cons in Hnodup.
  apply NoDup_app in Hnodup as (_ & Hpre_f & Hpost%NoDup_cons).
  apply NoDup_app in Hpaths as (_ & _ & Hpaths%NoDup_cons).
  destruct Hpost as [Hf_post _]. destruct Hpaths as [Hf_paths _].
  split; [|split].
  - rewrite Hfs. apply batch_loop_frame; [done|].
    unfold is_file in Hfile. destruct (batch_fs st1 !! f); [eauto|done].
  - intros pairs n Hr Hin.
    rewrite Hout in Hr.
    destruct (batch_loop _ _ _ _ _ post st1) as [st'|fs'] eqn:Hpost; [|done].
    simpl in Hr.
    assert ((name f, n) ∈ renamed_files st') as Hin'
      by (destruct (renamed_files st'); [done|by injection Hr as <-]).
    destruct (batch_loop_pairs _ _ _ _ _ _ _ _ _ _ Hpost Hin') as [Hold|Hnew]; [|done].
    destruct (batch_loop_pairs _ _ _ _ _ _ _ _ _ _ Hpre Hold) as [Hnil|Hnew].
    + by apply elem_of_nil in Hnil.
    + apply (Hpre_f (name f)); [done|left].
  - rewrite Hfs, batch_loop_size.
    pose proof (batch_loop_size re_sub joinpath pattern replacement extensions pre
                  (BatchState fs [])) as Hs.
    rewrite Hpre in Hs. done.
Qed.

Lemma batch_rename_never_overwrites_witness :
  let f := ["work"; "report_draft.txt"]%string in
  let st1 := BatchState work_tree [] in
  let out := batch_rename_files_with literal_sub join_child iterdir work_tree ["work"%string]
               "draft" "final" None in
  batch_step literal_sub join_child "draft" "final" (parse_extensions None) st1 f
  = Continue st1
  ∧ out.2 !! f = batch_fs st1 !! f
  ∧ (∀ pairs n, out.1 = BatchRenamed pairs → (name f, n) ∉ pairs)
  ∧ size out.2 = size work_tree.
Proof.
  intros f st1.
  apply (batch_rename_never_overwrites literal_sub join_child iterdir work_tree
           ["work"%string] "draft" "final" None []
           f [["work"; "notes_draft.txt"]; ["work"; "report_final.txt"]]%string
           st1 "report_final.txt").
  - vm_compute. reflexivity.
  - vm_compute. reflexivity.
  - apply (bool_decide_unpack _). vm_compute. exact I.
  - reflexivity.
  - vm_compute. reflexivity.
  - vm_compute. reflexivity.
  - vm_compute. reflexivity.
Defined.

(** On [work_tree] only the notes are renamed; the draft of the report stays
    next to the final version, whose content is kept. *)
Example batch_rename_work_tree :
  let out := batch_rename_files literal_sub join_child work_tree ["work"%string]
               "draft" "final" None in
  out.1 = BatchRenamed [("notes_draft.txt", "notes_final.txt")]%string
  ∧ out.2 !! (["work"; "report_draft.txt"]%string) = Some (plain_file [x41])
  ∧ out.2 !! (["work"; "report_final.txt"]%string) = Some (plain_file [x42])
  ∧ out.2 !! (["work"; "notes_final.txt"]%string) = Some (plain_file [x43])
  ∧ out.2 !! (["work"; "notes_draft.txt"]%string) = None.
Proof. repeat split; vm_compute; reflexivity. Qed.

(** ** Facts about names and the file-system updates *)

Lemma string_app_length (s1 s2 : string) :
  String.length (s1 +:+ s2) = String.length s1 + String.length s2.
Proof. induction s1 as [|a s1 IH]; simpl; [done|]. by rewrite IH. Qed.

Lemma string_app_inv_tail (s1 s2 e : string) : s1 +:+ e = s2 +:+ e → s1 = s2.
Proof.
  revert s2. induction s1 as [|a s1 IH]; intros [|b s2] Heq; simpl in *.
  - done.
  - apply (f_equal String.length) in Heq.
    rewrite !string_app_length in Heq. simpl in Heq. lia.
  - apply (f_equal String.length) in Heq.
    rewrite !string_app_length in Heq. simpl in Heq. lia.
  - injection Heq as -> Heq. f_equal. by apply IH.
Qed.

Lemma str_of_nat_inj n m : str_of_nat n = str_of_nat m → n = m.
Proof.
  unfold str_of_nat. intros Heq.
  apply DecimalNat.Unsigned.to_uint_inj.
  apply (f_equal NilEmpty.uint_of_string) in Heq.
  rewrite !NilEmpty.usu in Heq. congruence.
Qed.

Lemma numbered_inj category_dir stem ext j k :
  numbered category_dir stem ext j = numbered category_dir stem ext k → j = k.
Proof.
  unfold numbered. intros Heq. apply app_inv_head in Heq. injection Heq as Heq.
  apply String.app_inj in Heq. apply String.app_inj in Heq.
  apply string_app_inv_tail in Heq. by apply str_of_nat_inj.
Qed.

Lemma exists_false fs p : exists_ fs p = false ↔ fs !! p = None.
Proof. unfold exists_. destruct (fs !! p); split; congruence. Qed.

Lemma exists_true fs p : exists_ fs p = true ↔ is_Some (fs !! p).
Proof. unfold exists_. destruct (fs !! p); split; try done; intros []; done. Qed.

Lemma parent_child (p : path) (nm : string) : parent (p ++ [nm]) = p.
Proof. unfold parent. apply removelast_last. Qed.

Lemma name_child (p : path) (nm : string) : name (p ++ [nm]) = nm.
Proof. unfold name. apply last_last. Qed.

Lemma adds_dirs_refl fs : adds_dirs fs fs.
Proof. split; [done|auto]. Qed.

Lemma adds_dirs_trans fs1 fs2 fs3 : adds_dirs fs1 fs2 → adds_dirs fs2 fs3 → adds_dirs fs1 fs3.
Proof. intros [H1 H1'] [H2 H2']. split; [by etrans|auto]. Qed.

Lemma adds_dirs_insert fs p : fs !! p = None → adds_dirs fs (<[p := Dir]> fs).
Proof.
  intros Hp. split; [by apply insert_subseteq|].
  intros q d. destruct (decide (p = q)) as [->|Hne].
  - by rewrite lookup_insert_eq.
  - by rewrite lookup_insert_ne.
Qed.

Lemma mkdir_single_spec fs p fs' :
  mkdir_single fs p true = Some fs' →
  (fs' = fs ∧ fs !! p = Some Dir)
  ∨ (fs' = <[p := Dir]> fs ∧ fs !! p = None ∧ fs !! parent p = Some Dir).
Proof.
  unfold mkdir_single, os_mkdir, is_dir.
  destruct (fs !! p) as [[d|]|] eqn:Hp; simpl; try discriminate.
  - intros [= <-]. by left.
  - destruct (fs !! parent p) as [[d|]|]; simpl; try discriminate.
    intros [= <-]. by right.
Qed.

Lemma mkdir_single_adds_dirs fs p fs' :
  mkdir_single fs p true = Some fs' → adds_dirs fs fs' ∧ fs' !! p = Some Dir.
Proof.
  intros [[-> Hp]|(-> & Hp & _)]%mkdir_single_spec.
  - split; [apply adds_dirs_refl|done].
  - split; [by apply adds_dirs_insert|apply lookup_insert_eq].
Qed.

Lemma mkdir_parents_adds_dirs fuel fs p fs' :
  mkdir_parents fuel fs p true = Some fs' → adds_dirs fs fs'.
Proof.
  revert fs p fs'. induction fuel as [|fuel IH]; intros fs p fs' Hmk;
    simpl in Hmk; unfold os_mkdir in Hmk.
  - repeat case_match; simplify_eq;
      (apply adds_dirs_refl || by apply adds_dirs_insert).
  - destruct (fs !! p) as [nd|] eqn:Hp.
    { repeat case_match; simplify_eq. apply adds_dirs_refl. }
    destruct (fs !! parent p) as [[d|]|] eqn:Hparent.
    + repeat case_match; simplify_eq. apply adds_dirs_refl.
    + simplify_eq. by apply adds_dirs_insert.
    + case_bool_decide; [done|].
      destruct (mkdir_parents fuel fs (parent p) true) as [fs1|] eqn:Hrec; [|done].
      apply mkdir_single_adds_dirs in Hmk as [? _].
      eapply adds_dirs_trans; [by eapply IH|done].
Qed.

Lemma mkdir_adds_dirs fs p parents fs' :
  mkdir fs p parents true = Some fs' → adds_dirs fs fs'.
Proof.
  unfold mkdir. destruct parents.
  - apply mkdir_parents_adds_dirs.
  - by intros [? _]%mkdir_single_adds_dirs.
Qed.

(** Copying to a free place in an existing directory. *)
Lemma copy2_fresh fs src dst fs' :
  fs !! dst = None → copy2 fs src dst = Some fs' →
  ∃ d, fs !! src = Some (File d) ∧ readable d = true ∧ fs' = <[dst := File d]> fs.
Proof.
  intros Hdst. unfold copy2, is_dir. rewrite Hdst. simpl. rewrite Hdst.
  destruct (fs !! src) as [[d|]|]; try done.
  destruct (readable d) eqn:Hr; [|done].
  case_bool_decide; [done|].
  destruct (fs !! parent dst) as [[?|]|]; try done.
  intros [= <-]. eauto.
Qed.

Lemma copy2_fresh_ok fs src dst d :
  fs !! dst = None → fs !! src = Some (File d) → readable d = true →
  fs !! parent dst = Some Dir →
  copy2 fs src dst = Some (<[dst := File d]> fs).
Proof.
  intros Hdst Hsrc Hr Hparent. unfold copy2, is_dir.
  rewrite Hsrc, Hr, Hdst. simpl. rewrite Hdst, Hparent.
  case_bool_decide as Heq; [|done]. congruence.
Qed.

(** What the [while] loop returns: the first candidate that does not exist. *)
Lemma resolve_conflict_spec fuel fs category_dir stem ext destination counter result :
  resolve_conflict fuel fs category_dir stem ext destination counter = Some result →
  fs !! result = None
  ∧ (result = destination
     ∨ is_Some (fs !! destination)
       ∧ ∃ k, counter ≤ k ∧ result = numbered category_dir stem ext k
            ∧ ∀ j, counter ≤ j < k → is_Some (fs !! numbered category_dir stem ext j)).
Proof.
  revert destination counter.
  induction fuel as [|fuel IH]; intros destination counter; simpl; [done|].
  destruct (exists_ fs destination) eqn:Hex.
  - intros Hrec. apply exists_true in Hex.
    destruct (IH _ _ Hrec) as [Hfree [->|(Hnum & k & Hk & -> & Hbelow)]].
    + split; [done|]. right. split; [done|]. exists counter.
      split; [lia|]. split; [done|]. intros j ?; lia.
    + split; [done|]. right. split; [done|]. exists k.
      split; [lia|]. split; [done|]. intros j Hj.
      destruct (decide (j = counter)) as [->|]; [done|]. apply Hbelow. lia.
  - intros [= <-]. apply exists_false in Hex. split; [done|]. by left.
Qed.

Lemma resolve_conflict_stuck fuel fs category_dir stem ext destination counter :
  resolve_conflict (S fuel) fs category_dir stem ext destination counter = None →
  ∀ j, counter ≤ j < counter + fuel → is_Some (fs !! numbered category_dir stem ext j).
Proof.
  revert destination counter.
  induction fuel as [|fuel IH]; intros destination counter Hnone j Hj; [lia|].
  simpl in Hnone. destruct (exists_ fs destination); [|done].
  destruct (exists_ fs (numbered category_dir stem ext counter)) eqn:Hex; [|done].
  destruct (decide (j = counter)) as [->|Hne]; [by apply exists_true|].
  apply (IH (numbered category_dir stem ext counter) (S counter)); [|lia].
  simpl. by rewrite Hex.
Qed.

(** The loop ends: the candidates are pairwise different, and the file
    system has finitely many entries. *)
Lemma choose_destination_total fs category_dir file_path ext :
  is_Some (choose_destination fs category_dir file_path ext).
Proof.
  unfold choose_destination.
  destruct (resolve_conflict _ _ _ _ _ _ _) as [d|] eqn:Hres; [eauto|exfalso].
  pose proof (resolve_conflict_stuck _ _ _ _ _ _ _ Hres) as Hall.
  set (candidates := numbered category_dir (stem file_path) ext <$> seq 1 (S (size fs))).
  assert (NoDup candidates) as Hnodup.
  { apply NoDup_fmap_2_strong; [|apply NoDup_seq].
    intros j k _ _. apply numbered_inj. }
  assert (candidates ⊆+ (map_to_list fs).*1) as Hsub.
  { apply NoDup_submseteq; [done|]. intros p [k [-> Hk]]%list_elem_of_fmap.
    apply elem_of_seq in Hk. destruct (Hall k) as [nd Hnd]; [lia|].
    apply list_elem_of_fmap. exists (numbered category_dir (stem file_path) ext k, nd).
    split; [done|]. by apply elem_of_map_to_list. }
  apply submseteq_length in Hsub.
  unfold candidates in Hsub.
  rewrite !length_fmap, length_seq, length_map_to_list in Hsub. lia.
Qed.

(** ** Properties of organize_files_by_type *)

Lemma count_files_adds_dirs fs fs' : adds_dirs fs fs' → count_files fs' = count_files fs.
Proof.
  intros [Hsub Hfiles]. unfold count_files. f_equal. apply map_eq. intros q.
  destruct (filter _ fs !! q) as [nd|] eqn:Hq.
  - apply map_lookup_filter_Some in Hq as [Hq Hnd].
    apply map_lookup_filter_Some. split; [by eapply lookup_weaken|done].
  - apply map_lookup_filter_None. apply map_lookup_filter_None in Hq as [Hq|Hq].
    + destruct (fs' !! q) as [[d|]|] eqn:Hq'.
      * apply Hfiles in Hq'. congruence.
      * right. intros nd [= <-]. simpl. tauto.
      * by left.
    + right. intros [d|] Hq'; simpl; [|tauto].
      apply Hfiles in Hq'. by apply (Hq _ Hq').
Qed.

Lemma count_files_insert_file fs p d :
  fs !! p = None → count_files (<[p := File d]> fs) = S (count_files fs).
Proof.
  intros Hp. unfold count_files.
  rewrite map_filter_insert_True by done.
  apply map_size_insert_None. apply map_lookup_filter_None. by left.
Qed.

Section OrganizeFacts.

Variable str_lower : string → string.


Lemma organize_step_effect target st f :
  org_effect str_lower target st f (organize_step str_lower target st f)
    (copy_destination str_lower target (org_fs st) f).
Proof.
  unfold organize_step, copy_destination.
  destruct (is_file (org_fs st) f) eqn:Hfile; [|by constructor].
  set (ext := str_lower (suffix f)).
  set (category_dir := target ++ [find_category categories ext]).
  unfold mkdir.
  destruct (mkdir_single (org_fs st) category_dir true) as [fs1|] eqn:Hmk; [|constructor].
  apply mkdir_single_adds_dirs in Hmk as [Hdirs Hcat].
  destruct (choose_destination_total fs1 category_dir f ext) as [dst Hdst].
  rewrite Hdst. unfold choose_destination in Hdst.
  apply resolve_conflict_spec in Hdst as [Hfree Hshape].
  assert (parent dst = category_dir) as Hparent.
  { destruct Hshape as [->|(_ & k & _ & -> & _)]; apply parent_child. }
  destruct (copy2 fs1 f dst) as [fs2|] eqn:Hcopy.
  - destruct (copy2_fresh _ _ _ _ Hfree Hcopy) as (d & Hf & Hr & ->).
    apply org_copied; try done. by apply Hdirs.
  - apply org_copy_failed; [done|]. intros d Hf.
    destruct (readable d) eqn:Hr; [exfalso|done].
    destruct Hdirs as [Hsub _].
    rewrite (copy2_fresh_ok fs1 f dst d) in Hcopy; try done.
    + by eapply lookup_weaken.
    + by rewrite Hparent.
Qed.

Lemma well_named_under target fs src dst :
  well_named str_lower target fs src dst → ∃ category nm, dst = target ++ [category; nm].
Proof.
  intros [->|(_ & k & _ & -> & _)]; unfold numbered;
    rewrite <-app_assoc; simpl; eauto.
Qed.

Lemma organize_step_grows target st f :
  match organize_step str_lower target st f with
  | Next st' => org_fs st ⊆ org_fs st' ∧ new_files_under target (org_fs st) (org_fs st')
  | Throw fs' => fs' = org_fs st
  | Spin => False
  end.
Proof.
  destruct (organize_step_effect target st f)
    as [Hfile| |fs1 [Hsub Hfiles] Hr|fs1 d dst [Hsub Hfiles] Hf Hr Hfree Hnamed]; simpl.
  - split; [done|]. intros q d ?. by left.
  - done.
  - split; [done|]. intros q d Hq. left. by apply Hfiles.
  - split.
    + etrans; [done|]. by apply insert_subseteq.
    + intros q d' Hq. destruct (decide (dst = q)) as [<-|Hne].
      * right. by eapply well_named_under.
      * rewrite lookup_insert_ne in Hq by done. left. by apply Hfiles.
Qed.

(** A run ends, and what it leaves is the file system it found plus
    directories and files below the target. *)
Lemma organize_loop_grows target walk st :
  ∃ fs', final_fs (organize_loop str_lower target walk st) = Some fs'
       ∧ org_fs st ⊆ fs' ∧ new_files_under target (org_fs st) fs'.
Proof.
  revert st. induction walk as [|f walk IH]; intros st; simpl.
  - exists (org_fs st). split; [done|]. split; [done|]. intros q d ?. by left.
  - pose proof (organize_step_grows target st f) as Hstep.
    destruct (organize_step str_lower target st f) as [st1|fs1|]; [|subst fs1|done].
    + destruct Hstep as [Hsub Hnew]. destruct (IH st1) as (fs' & Hfinal & Hsub' & Hnew').
      exists fs'. split; [done|]. split; [by etrans|].
      intros q d Hq. destruct (Hnew' q d Hq) as [Hq1|?]; [|by right]. by apply Hnew.
    + exists (org_fs st). split; [done|]. split; [done|]. intros q d ?. by left.
Qed.






(** C8. A call always returns; every entry of the file system before the
    call is in the file system after it, with the same data; and every
    regular file that is new is two levels below the target directory. *)
Theorem organize_copies_not_moves walker fs source target :
  let out := organize_files_by_type_with str_lower walker fs source target in
  out.1 ≠ OrgNoReturn
  ∧ (∀ p nd, fs !! p = Some nd → out.2 !! p = Some nd)
  ∧ new_files_under target fs out.2.
Proof.
  unfold organize_files_by_type_with.
  destruct (negb (exists_ fs source)); simpl.
  { split; [discriminate|]. split; [done|]. intros q d ?. by left. }
  destruct (mkdir fs target true true) as [fs0|] eqn:Hmk; simpl.
  2:{ split; [discriminate|]. split; [done|]. intros q d ?. by left. }
  apply mkdir_adds_dirs in Hmk as [Hsub0 Hfiles0].
  destruct (organize_loop_grows target (walker fs0 source) (OrgState fs0 ∅))
    as (fs' & Hfinal & Hsub & Hnew).
  simpl in *.
  assert (∀ q d, fs' !! q = Some (File d) →
            fs !! q = Some (File d) ∨ ∃ category nm, q = target ++ [category; nm]) as Hnew'.
  { intros q d Hq. destruct (Hnew q d Hq) as [?|?]; [left|by right]. by apply Hfiles0. }
  destruct (organize_loop _ _ _ _) as [st'|fs1|]; simpl in *; [| |done].
  - injection Hfinal as ->. split; [discriminate|]. split; [|done].
    intros p nd Hp. eapply lookup_weaken; [done|]. by etrans.
  - injection Hfinal as ->. split; [discriminate|]. split; [|done].
    intros p nd Hp. eapply lookup_weaken; [done|]. by etrans.
Qed.

End OrganizeFacts.


(** On [photos_tree] the three [notes.txt] end up as [notes.txt],
    [notes_1.txt] and [notes_2.txt] next to each other, and the picture under
    [Images]. *)
Example organize_photos_tree :
  let out := organize_files_by_type lower photos_tree ["in"%string] ["out"%string] in
  out.1 = OrgDone {[ "Documents"%string := 3; "Images"%string := 1 ]}
  ∧ out.2 !! (["out"; "Documents"; "notes.txt"]%string) = Some (plain_file [x43])
  ∧ out.2 !! (["out"; "Documents"; "notes_1.txt"]%string) = Some (plain_file [x42])
  ∧ out.2 !! (["out"; "Documents"; "notes_2.txt"]%string) = Some (plain_file [x41])
  ∧ out.2 !! (["out"; "Images"; "photo.png"]%string) = Some (plain_file [x44]).
Proof. repeat split; vm_compute; reflexivity. Qed.


(** ** A root that is a regular file *)

(** C4 (the code at a root that exists and is not a directory).  With the
    regular file [notes] of [docs_tree] as root, [find_duplicate_files]
    answers that no duplicates were found among 0 scanned files,
    [organize_files_by_type] reports an empty organisation and makes the
    target directory, [get_directory_statistics] fails on the time stamp of
    its empty record, and only [batch_rename_files] fails because the root
    cannot be listed. *)
Theorem root_is_a_regular_file (str_lower : string → string) (in_range : Z → bool) :
  let root := ["notes"%string] in
  is_file docs_tree root = true
  ∧ find_duplicate_files [] app toy_digest docs_tree root 0 = DupNone 0
  ∧ (organize_files_by_type str_lower docs_tree root ["out"%string]).1 = OrgDone ∅
  ∧ is_dir (organize_files_by_type str_lower docs_tree root ["out"%string]).2
      ["out"%string] = true
  ∧ Statistics.get_directory_statistics in_range docs_tree root = Statistics.StatsError
  ∧ (batch_rename_files literal_sub join_child docs_tree root "draft" "final" None).1
    = BatchError.
Proof. repeat split; vm_compute; reflexivity. Qed.

(** * Further properties of the code *)

(** ** The category table *)

Lemma find_category_cons cat extensions rest ext :
  find_category ((cat, extensions) :: rest) ext
  = if bool_decide (ext ∈ extensions) then cat else find_category rest ext.
Proof. reflexivity. Qed.

(** The search returns a category that lists the extension, or "Others"
    when no list has it. *)
Lemma find_category_sound cats ext :
  (∃ extensions, (find_category cats ext, extensions) ∈ cats ∧ ext ∈ extensions)
  ∨ (find_category cats ext = "Others"%string
     ∧ ∀ c extensions, (c, extensions) ∈ cats → ext ∉ extensions).
Proof.
  induction cats as [|[cat extensions] rest IH].
  - right. split; [done|]. intros c extensions Hin. by apply elem_of_nil in Hin.
  - rewrite find_category_cons. case_bool_decide as Hext.
    + left. exists extensions. split; [left|done].
    + destruct IH as [(exts & Hin & Hin')|[Hothers Hnone]].
      * left. exists exts. split; [by right|done].
      * right. split; [done|]. intros c exts [Heq|Hin]%elem_of_cons.
        -- by injection Heq as -> ->.
        -- by eapply Hnone.
Qed.

(** X1. The lists of the table share no extension, so the order in which
    the table is searched does not matter: an extension gets a category
    exactly when the table lists it under that category, and "Others"
    exactly when no list has it (the list of "Others" itself is empty). *)
Theorem find_category_spec ext cat :
  find_category categories ext = cat
  ↔ (∃ extensions, (cat, extensions) ∈ categories ∧ ext ∈ extensions)
    ∨ (cat = "Others"%string ∧ ∀ c extensions, (c, extensions) ∈ categories → ext ∉ extensions).
Proof.
  split.
  - intros <-. destruct (find_category_sound categories ext) as [?|[-> ?]]; [by left|by right].
  - intros [(extensions & Hin & Hext)|[-> Hnone]].
    + unfold categories in Hin.
      repeat (apply elem_of_cons in Hin as [Hin|Hin];
              [injection Hin as -> ->;
               repeat (apply elem_of_cons in Hext as [->|Hext]; [by vm_compute|]);
               by apply elem_of_nil in Hext|]).
      by apply elem_of_nil in Hin.
    + destruct (find_category_sound categories ext) as [(exts & Hin & Hext)|[? _]]; [|done].
      by destruct (Hnone _ _ Hin).
Qed.

(** ** More on find_duplicate_files *)

Lemma read_chunks_concat fuel (data : list byte) :
  length data ≤ fuel → concat (read_chunks fuel data) = data.
Proof.
  revert data. induction fuel as [|fuel IH]; intros data Hlen.
  - destruct data; [done|simpl in Hlen; lia].
  - destruct data as [|b data]; [done|].
    cbn [read_chunks concat]. rewrite IH; [apply take_drop|].
    rewrite length_drop. simpl in *. lia.
Qed.

Lemma read_chunks_blocks fuel (data : list byte) :
  Forall (λ block, 0 < length block ≤ 4096) (read_chunks fuel data).
Proof.
  revert data. induction fuel as [|fuel IH]; intros data; [constructor|].
  destruct data as [|b data]; [constructor|].
  cbn [read_chunks]. constructor; [|apply IH].
  rewrite length_take. simpl length. lia.
Qed.

Lemma rglob_NoDup fs root : NoDup (rglob fs root).
Proof.
  unfold rglob. destruct (is_dir fs root); [|constructor].
  apply NoDup_filter, NoDup_fst_map_to_list.
Qed.

Section FindDuplicatesMore.

Context {md5_state : Type}.
Variable md5_new : md5_state.
Variable md5_update : md5_state → list byte → md5_state.
Variable md5_hexdigest : md5_state → string.

Local Abbreviation get_file_hash := (get_file_hash md5_new md5_update md5_hexdigest).
Local Abbreviation find_duplicate_files_with :=
  (find_duplicate_files_with md5_new md5_update md5_hexdigest).
Local Abbreviation filed_under := (filed_under md5_new md5_update md5_hexdigest).

(** X2. The digest of a readable file is taken over its whole content, fed
    to the hash in order in blocks of at most 4096 bytes, none of them
    empty. *)
Theorem digest_reads_whole_file fs p d :
  fs !! p = Some (File d) → readable d = true →
  ∃ blocks, get_file_hash fs p = Some (md5_hexdigest (foldl md5_update md5_new blocks))
          ∧ concat blocks = content d
          ∧ Forall (λ block, 0 < length block ≤ 4096) blocks.
Proof.
  intros Hp Hr. exists (read_chunks (length (content d)) (content d)).
  split; [by apply get_file_hash_readable|].
  split; [by apply read_chunks_concat|apply read_chunks_blocks].
Qed.

(** X3. When the traversal yields no path twice, the reported groups are
    a partition of the files they hold: no group lists a file twice, no
    two groups have the same digest, and a file is in one group only. *)
Theorem reported_groups_are_disjoint walker fs directory min_size :
  NoDup (walker fs directory) →
  let gs := groups_reported (find_duplicate_files_with walker fs directory min_size) in
  Forall (λ g, NoDup g.2) gs
  ∧ NoDup gs.*1
  ∧ ∀ h1 files1 h2 files2 f,
      (h1, files1) ∈ gs → (h2, files2) ∈ gs → f ∈ files1 → f ∈ files2 →
      h1 = h2 ∧ files1 = files2.
Proof.
  intros Hnodup gs. subst gs.
  destruct (exists_ fs directory) eqn:Hex.
  2:{ rewrite groups_reported_not_exist by done. split; [constructor|].
      split; [constructor|]. intros ????? Hin. by apply elem_of_nil in Hin. }
  split; [|split].
  - apply Forall_forall. intros [h files] [-> _]%groups_reported_elem; [|done].
    simpl. by apply NoDup_filter.
  - destruct (find_duplicates_observed md5_new md5_update md5_hexdigest
                walker fs directory min_size Hex) as [-> _].
    apply NoDup_fst_map_to_list.
  - intros h1 files1 h2 files2 f [-> _]%groups_reported_elem [-> _]%groups_reported_elem;
      [|done..].
    intros [[_ H1] _]%list_elem_of_filter [[_ H2] _]%list_elem_of_filter.
    assert (h1 = h2) as -> by congruence. done.
Qed.


End FindDuplicatesMore.

Lemma foldl_app_concat {A} (acc : list A) (blocks : list (list A)) :
  foldl app acc blocks = acc ++ concat blocks.
Proof.
  revert acc. induction blocks as [|b blocks IH]; intros acc; simpl.
  - by rewrite app_nil_r.
  - by rewrite IH, app_assoc.
Qed.

Lemma toy_digest_inj (c1 c2 : list byte) : toy_digest c1 = toy_digest c2 → c1 = c2.
Proof.
  unfold toy_digest. intros Heq.
  apply (f_equal String.list_ascii_of_string) in Heq.
  rewrite !String.list_ascii_of_string_of_list_ascii in Heq.
  revert c2 Heq. induction c1 as [|b1 c1 IH]; intros [|b2 c2] Heq; try done.
  injection Heq as Hb Heq. f_equal; [|by apply IH].
  simpl in Hb. apply (f_equal Ascii.nat_of_ascii) in Hb.
  pose proof (Byte.to_nat_bounded b1). pose proof (Byte.to_nat_bounded b2).
  rewrite !Ascii.nat_ascii_embedding in Hb by lia.
  apply (f_equal Byte.of_nat) in Hb. rewrite !Byte.of_to_nat in Hb. congruence.
Qed.

Section FindDuplicatesSound.

Context {md5_state : Type}.
Variable md5_new : md5_state.
Variable md5_update : md5_state → list byte → md5_state.
Variable md5_hexdigest : md5_state → string.

(** X5. If the digest separates the contents of the files the traversal
    meets, the members of a reported group all hold the same bytes. *)
Theorem same_group_same_content walker fs directory min_size :
  (∀ f1 f2 d1 d2,
     f1 ∈ walker fs directory → f2 ∈ walker fs directory →
     fs !! f1 = Some (File d1) → fs !! f2 = Some (File d2) →
     get_file_hash md5_new md5_update md5_hexdigest fs f1
     = get_file_hash md5_new md5_update md5_hexdigest fs f2 →
     readable d1 = true →
     content d1 = content d2) →
  ∀ h files f1 f2,
    (h, files) ∈ groups_reported
                   (find_duplicate_files_with md5_new md5_update md5_hexdigest
                      walker fs directory min_size) →
    f1 ∈ files → f2 ∈ files →
    ∃ d1 d2, fs !! f1 = Some (File d1) ∧ fs !! f2 = Some (File d2)
           ∧ content d1 = content d2.
Proof.
  intros Hsep h files f1 f2 Hin Hf1 Hf2.
  destruct (exists_ fs directory) eqn:Hex;
    [|rewrite groups_reported_not_exist in Hin by done; by apply elem_of_nil in Hin].
  apply groups_reported_elem in Hin as [-> _]; [|done].
  apply list_elem_of_filter in Hf1 as [[Hm1 Hh1] Hw1].
  apply list_elem_of_filter in Hf2 as [[Hm2 Hh2] Hw2].
  apply meets_threshold_spec in Hm1 as (d1 & Hd1 & _).
  apply meets_threshold_spec in Hm2 as (d2 & Hd2 & _).
  exists d1, d2. split; [done|]. split; [done|].
  apply (Hsep f1 f2); try done; [congruence|].
  unfold get_file_hash, read_bytes in Hh1. rewrite Hd1 in Hh1.
  by destruct (readable d1).
Qed.

End FindDuplicatesSound.

Lemma digest_reads_whole_file_witness :
  ∃ blocks,
    get_file_hash [] app toy_digest docs_tree ["docs"; "a.txt"]%string
    = Some (toy_digest (foldl app [] blocks))
    ∧ concat blocks = content (FileData [x58; x58] true 0)
    ∧ Forall (λ block, 0 < length block ≤ 4096) blocks.
Proof.
  apply (digest_reads_whole_file [] app toy_digest docs_tree
           ["docs"; "a.txt"]%string (FileData [x58; x58] true 0)).
  - vm_compute. reflexivity.
  - reflexivity.
Defined.

Lemma reported_groups_are_disjoint_witness :
  let gs := groups_reported
              (find_duplicate_files_with [] app toy_digest rglob docs_tree ["docs"%string] 0) in
  Forall (λ g, NoDup g.2) gs
  ∧ NoDup gs.*1
  ∧ ∀ h1 files1 h2 files2 f,
      (h1, files1) ∈ gs → (h2, files2) ∈ gs → f ∈ files1 → f ∈ files2 →
      h1 = h2 ∧ files1 = files2.
Proof.
  apply (reported_groups_are_disjoint [] app toy_digest rglob docs_tree ["docs"%string] 0).
  apply (bool_decide_unpack _). vm_compute. exact I.
Defined.


Lemma same_group_same_content_witness :
  ∃ d1 d2, docs_tree !! ["docs"; "b.txt"]%string = Some (File d1)
         ∧ docs_tree !! ["docs"; "a.txt"]%string = Some (File d2)
         ∧ content d1 = content d2.
Proof.
  refine (same_group_same_content [] app toy_digest rglob docs_tree ["docs"%string] 0 _
            "XX" [["docs"; "b.txt"]; ["docs"; "a.txt"]]%string
            ["docs"; "b.txt"]%string ["docs"; "a.txt"]%string _ _ _).
  - intros f1 f2 d1 d2 _ _ Hd1 Hd2 Hhash Hr1.
    unfold get_file_hash, read_bytes in Hhash. rewrite Hd1, Hd2, Hr1 in Hhash.
    destruct (readable d2); [|done]. injection Hhash as Hhash.
    apply toy_digest_inj in Hhash.
    rewrite !foldl_app_concat, !read_chunks_concat in Hhash by done. done.
  - apply (bool_decide_unpack _). vm_compute. exact I.
  - apply (bool_decide_unpack _). vm_compute. exact I.
  - apply (bool_decide_unpack _). vm_compute. exact I.
Defined.

(** ** More on batch_rename_files *)

Section BatchRenameMore.

Variable re_sub : string → string → string → option string.
Variable joinpath : path → string → path.
Variables (pattern replacement : string) (extensions : option (list string)).

Local Abbreviation step := (batch_step re_sub joinpath pattern replacement extensions).
Local Abbreviation loop := (batch_loop re_sub joinpath pattern replacement extensions).

Local Abbreviation justified := (justified re_sub pattern replacement extensions).

Lemma batch_step_record st st' p :
  step st p = Continue st' →
  renamed_files st' = renamed_files st
  ∨ ∃ new_name, renamed_files st' = renamed_files st ++ [(name p, new_name)]
              ∧ justified [p] (name p, new_name).
Proof.
  unfold batch_step. destruct (is_file _ _); [|intros [= <-]; by left].
  destruct (filtered_out extensions p) eqn:Hfilter; [intros [= <-]; by left|].
  destruct (re_sub pattern replacement (name p)) as [new_name|] eqn:Hsub; [|done].
  case_bool_decide as Hne; [|intros [= <-]; by left].
  destruct (exists_ _ _); [intros [= <-]; by left|].
  destruct (rename _ _ _); [|done]. intros [= <-]. right.
  exists new_name. split; [done|]. exists p. split; [left|done].
Qed.

Lemma justified_mono walk walk' pair :
  (∀ p, p ∈ walk → p ∈ walk') → justified walk pair → justified walk' pair.
Proof. intros Hsub (p & Hp & ?). exists p. split; [by apply Hsub|done]. Qed.

Lemma batch_loop_record walk st st' :
  loop walk st = Continue st' →
  ∃ added, renamed_files st' = renamed_files st ++ added
         ∧ added.*1 `sublist_of` (name <$> walk)
         ∧ Forall (justified walk) added.
Proof.
  revert st. induction walk as [|p walk IH]; intros st Hloop; simpl in Hloop.
  - injection Hloop as <-. exists []. rewrite app_nil_r. split; [done|]. split; constructor.
  - destruct (step st p) as [st1|] eqn:Hstep; [|done].
    destruct (IH _ Hloop) as (added & Hadded & Hsub & Hjust).
    assert (Forall (justified (p :: walk)) added) as Hjust'.
    { eapply Forall_impl; [done|]. intros pair. apply justified_mono. intros; by right. }
    destruct (batch_step_record _ _ _ Hstep) as [Hsame|(new_name & Hnew & Hj)].
    + exists added. rewrite Hadded, Hsame. split; [done|]. split; [|done].
      rewrite fmap_cons. by apply sublist_cons.
    + exists ((name p, new_name) :: added). rewrite Hadded, Hnew, <-app_assoc.
      split; [done|]. split.
      * rewrite !fmap_cons. by apply sublist_skip.
      * constructor; [|done]. eapply justified_mono; [|done].
        intros q ->%list_elem_of_singleton. left.
Qed.


End BatchRenameMore.


(** X7. The pairs a call reports come in the order of the listing, at most
    one for each listed entry, and each is justified: its old name is the
    name of a listed entry that passed the extension filter, its new name is
    what the substitution makes of the old name, and the two differ. *)
Theorem batch_rename_pairs_justified re_sub joinpath lister fs directory
    pattern replacement file_extensions walk pairs :
  lister fs directory = Some walk →
  (batch_rename_files_with re_sub joinpath lister fs directory
     pattern replacement file_extensions).1 = BatchRenamed pairs →
  pairs.*1 `sublist_of` (name <$> walk)
  ∧ Forall (justified re_sub pattern replacement (parse_extensions file_extensions) walk) pairs.
Proof.
  intros Hlist. unfold batch_rename_files_with. rewrite Hlist.
  destruct (negb (exists_ fs directory)); [done|].
  destruct (batch_loop _ _ _ _ _ walk _) as [st'|] eqn:Hloop; [|done].
  apply batch_loop_record in Hloop as (added & Hadded & Hsub & Hjust).
  simpl in *. subst added.
  destruct (renamed_files st'); [done|]. by intros [= <-].
Qed.


Lemma batch_rename_pairs_justified_witness :
  let walk := [["work"; "report_draft.txt"]; ["work"; "notes_draft.txt"];
               ["work"; "report_final.txt"]]%string in
  let pairs := [("notes_draft.txt", "notes_final.txt")]%string in
  pairs.*1 `sublist_of` (name <$> walk)
  ∧ Forall (justified literal_sub "draft" "final" (parse_extensions None) walk) pairs.
Proof.
  intros walk pairs.
  apply (batch_rename_pairs_justified literal_sub join_child iterdir work_tree
           ["work"%string] "draft" "final" None walk pairs).
  - vm_compute. reflexivity.
  - vm_compute. reflexivity.
Defined.

(** ** More on organize_files_by_type *)

Lemma category_in_table ext : find_category categories ext ∈ categories.*1.
Proof.
  destruct (find_category_sound categories ext) as [(exts & Hin & _)|[-> _]].
  - apply list_elem_of_fmap. by eexists (_, _).
  - unfold categories. set_solver.
Qed.

Section OrganizeMore.

Variable str_lower : string → string.

Lemma organize_step_counts target st st' f :
  organize_step str_lower target st f = Next st' →
  counts_wf (moved_files st) →
  counts_wf (moved_files st')
  ∧ map_sum id (moved_files st') + count_files (org_fs st)
    = map_sum id (moved_files st) + count_files (org_fs st').
Proof.
  intros Hstep Hwf.
  destruct (organize_step_effect str_lower target st f)
    as [Hfile| |fs1 Hdirs Hr|fs1 d dst Hdirs Hf Hr Hfree Hnamed];
    try injection Hstep as <-; try done; simpl.
  - split; [done|]. by rewrite (count_files_adds_dirs _ _ Hdirs).
  - split.
    + intros c n. unfold bump.
      destruct (decide (find_category categories (str_lower (suffix f)) = c)) as [<-|Hne].
      * rewrite lookup_insert_eq. intros [= <-]. split; [apply category_in_table|lia].
      * rewrite lookup_insert_ne by done. apply Hwf.
    + rewrite map_sum_bump, count_files_insert_file by done.
      rewrite (count_files_adds_dirs _ _ Hdirs). lia.
Qed.

Lemma organize_loop_counts target walk st st' :
  organize_loop str_lower target walk st = Next st' →
  counts_wf (moved_files st) →
  counts_wf (moved_files st')
  ∧ map_sum id (moved_files st') + count_files (org_fs st)
    = map_sum id (moved_files st) + count_files (org_fs st').
Proof.
  revert st. induction walk as [|f walk IH]; intros st Hloop Hwf; simpl in Hloop.
  - by injection Hloop as <-.
  - destruct (organize_step str_lower target st f) as [st1| |] eqn:Hstep; try done.
    destruct (organize_step_counts _ _ _ _ Hstep Hwf) as [Hwf1 Hsum1].
    destruct (IH _ Hloop Hwf1) as [Hwf' Hsum']. split; [done|lia].
Qed.

(** X8. The counts a completed run reports add up to the number of regular
    files the run added to the file system; every count is positive and
    stands under a category name of the table. *)
Theorem organize_counts_files_added walker fs source target :
  let out := organize_files_by_type_with str_lower walker fs source target in
  completed out.1 = true →
  ∃ moved, out.1 = OrgDone moved
         ∧ count_files out.2 = count_files fs + map_sum id moved
         ∧ ∀ c n, moved !! c = Some n → c ∈ categories.*1 ∧ 0 < n.
Proof.
  intros out Hdone. subst out. unfold organize_files_by_type_with in *.
  destruct (negb (exists_ fs source)); [done|].
  destruct (mkdir fs target true true) as [fs0|] eqn:Hmk; [|done].
  destruct (organize_loop str_lower target (walker fs0 source) (OrgState fs0 ∅)) as [st'| |] eqn:Hloop;
    try done.
  apply mkdir_adds_dirs in Hmk.
  destruct (organize_loop_counts _ _ _ _ Hloop) as [Hwf Hsum].
  { intros c n Hc. simpl in Hc. by rewrite lookup_empty in Hc. }
  simpl in *. rewrite map_sum_empty, (count_files_adds_dirs _ _ Hmk) in Hsum.
  exists (moved_files st'). split; [done|]. split; [lia|done].
Qed.

End OrganizeMore.

Lemma organize_counts_files_added_witness :
  let out := organize_files_by_type_with lower rglob photos_tree
               ["in"%string] ["out"%string] in
  ∃ moved, out.1 = OrgDone moved
         ∧ count_files out.2 = count_files photos_tree + map_sum id moved
         ∧ ∀ c n, moved !! c = Some n → c ∈ categories.*1 ∧ 0 < n.
Proof.
  apply (organize_counts_files_added lower rglob photos_tree
           ["in"%string] ["out"%string]).
  vm_compute. reflexivity.
Defined.

(** ** More on get_directory_statistics *)

Lemma is_file_not_dir fs p : is_file fs p = true → is_dir fs p = false.
Proof. unfold is_file, is_dir. by destruct (fs !! p) as [[|]|]. Qed.

(** One iteration, case by case. *)
Lemma stats_step_cases fs st item :
  ∃ st', Statistics.stats_step fs st item = Some st'
  ∧ ((is_file fs item = true
      ∧ Statistics.total_files st' = S (Statistics.total_files st)
      ∧ Statistics.total_dirs st' = Statistics.total_dirs st
      ∧ Statistics.total_size st' = (Statistics.total_size st + file_size fs item)%Z
      ∧ Statistics.largest_file st'
        = (if bool_decide (file_size fs item > (Statistics.largest_file st).2)%Z
           then (item, file_size fs item) else Statistics.largest_file st)
      ∧ Statistics.oldest_file st'
        = (if time_lt (file_mtime fs item) (Statistics.oldest_file st).2
           then (item, Finite (file_mtime fs item)) else Statistics.oldest_file st)
      ∧ Statistics.newest_file st'
        = (if bool_decide (file_mtime fs item > (Statistics.newest_file st).2)%Z
           then (item, file_mtime fs item) else Statistics.newest_file st))
     ∨ (is_file fs item = false
        ∧ Statistics.total_files st' = Statistics.total_files st
        ∧ Statistics.total_dirs st'
          = (if is_dir fs item then S (Statistics.total_dirs st) else Statistics.total_dirs st)
        ∧ Statistics.total_size st' = Statistics.total_size st
        ∧ Statistics.largest_file st' = Statistics.largest_file st
        ∧ Statistics.oldest_file st' = Statistics.oldest_file st
        ∧ Statistics.newest_file st' = Statistics.newest_file st)).
Proof.
  unfold Statistics.stats_step, file_size, file_mtime.
  destruct (is_file fs item) eqn:Hfile.
  - destruct (is_file_stat _ _ Hfile) as (d & _ & ->).
    eexists. split; [done|]. left. simpl. repeat split.
  - destruct (is_dir fs item); eexists; (split; [done|]); right; repeat split.
Qed.

Lemma filter_cons_bool {A} (f : A → bool) x l :
  filter (λ y, f y = true) (x :: l)
  = if f x then x :: filter (λ y, f y = true) l else filter (λ y, f y = true) l.
Proof.
  rewrite filter_cons. destruct (f x); [by rewrite decide_True|by rewrite decide_False].
Qed.

Lemma stats_loop_totals fs walk st :
  ∃ st', Statistics.stats_loop fs walk st = Some st'
  ∧ Statistics.total_files st'
    = Statistics.total_files st + length (filter (λ p, is_file fs p = true) walk)
  ∧ Statistics.total_dirs st'
    = Statistics.total_dirs st + length (filter (λ p, is_dir fs p = true) walk)
  ∧ Statistics.total_size st' = (Statistics.total_size st + sum_sizes fs walk)%Z.
Proof.
  revert st. induction walk as [|item walk IH]; intros st.
  - exists st. unfold sum_sizes. simpl. repeat split; lia.
  - simpl. destruct (stats_step_cases fs st item) as (st1 & -> & Hcase).
    destruct (IH st1) as (st' & Hloop & Hfiles & Hdirs & Hsize).
    exists st'. split; [done|]. unfold sum_sizes in *. rewrite !filter_cons_bool.
    destruct Hcase as [(Hfile & Hf & Hd & Hs & _)|(Hfile & Hf & Hd & Hs & _)].
    + rewrite Hfile, (is_file_not_dir _ _ Hfile). simpl. repeat split; lia.
    + rewrite Hfile. destruct (is_dir fs item); simpl; repeat split; lia.
Qed.


(** X9. Whenever the call returns a report, its three totals are the
    number of regular files the traversal met, the number of directories it
    met, and the sum of the sizes of those files. *)
Theorem statistics_totals in_range walker fs directory st o n :
  Statistics.get_directory_statistics_with in_range walker fs directory
  = Statistics.StatsReport st o n →
  let walk := walker fs directory in
  Statistics.total_files st = length (filter (λ p, is_file fs p = true) walk)
  ∧ Statistics.total_dirs st = length (filter (λ p, is_dir fs p = true) walk)
  ∧ Statistics.total_size st = sum_sizes fs walk.
Proof.
  intros Hres walk. unfold Statistics.get_directory_statistics_with in Hres.
  destruct (negb (exists_ fs directory)); [done|].
  destruct (stats_loop_totals fs walk Statistics.initial_stats)
    as (st' & Hloop & Hf & Hd & Hs).
  subst walk. rewrite Hloop in Hres.
  destruct (fromtimestamp _ _); [|done].
  destruct (fromtimestamp _ _); [|done]. injection Hres as -> _ _.
  simpl in *. repeat split; lia.
Qed.

(** Case analysis on a [bool_decide] of the goal. *)
Ltac case_goal_decide :=
  match goal with
  | |- context [bool_decide ?P] => destruct (bool_decide_reflect P)
  end.

Lemma stats_loop_records fs walk st :
  ∃ st', Statistics.stats_loop fs walk st = Some st'
  ∧ ((Statistics.largest_file st).2 ≤ (Statistics.largest_file st').2)%Z
  ∧ ((Statistics.newest_file st).2 ≤ (Statistics.newest_file st').2)%Z
  ∧ (∀ t, time_lt t (Statistics.oldest_file st').2 = true →
          time_lt t (Statistics.oldest_file st).2 = true)
  ∧ (∀ p, p ∈ walk → is_file fs p = true →
          (file_size fs p ≤ (Statistics.largest_file st').2)%Z
          ∧ (file_mtime fs p ≤ (Statistics.newest_file st').2)%Z
          ∧ time_lt (file_mtime fs p) (Statistics.oldest_file st').2 = false)
  ∧ (Statistics.largest_file st' = Statistics.largest_file st
     ∨ ∃ p, p ∈ walk ∧ is_file fs p = true
          ∧ Statistics.largest_file st' = (p, file_size fs p))
  ∧ (Statistics.newest_file st' = Statistics.newest_file st
     ∨ ∃ p, p ∈ walk ∧ is_file fs p = true
          ∧ Statistics.newest_file st' = (p, file_mtime fs p))
  ∧ (Statistics.oldest_file st' = Statistics.oldest_file st
     ∨ ∃ p, p ∈ walk ∧ is_file fs p = true
          ∧ Statistics.oldest_file st' = (p, Finite (file_mtime fs p))).
Proof.
  revert st. induction walk as [|item walk IH]; intros st.
  - exists st. split; [done|]. split; [lia|]. split; [lia|]. split; [done|].
    split; [intros p Hp; by apply elem_of_nil in Hp|].
    split; [by left|]. split; by left.
  - simpl. destruct (stats_step_cases fs st item) as (st1 & -> & Hcase).
    destruct (IH st1) as (st' & Hloop & Hl & Hn & Ho & Hall & Hla & Hna & Hoa).
    exists st'. split; [done|].
    assert (∀ P : path → Prop, (∃ p, p ∈ walk ∧ P p) → ∃ p, p ∈ item :: walk ∧ P p) as Hlift.
    { intros P (p & Hp & HP). exists p. split; [by right|done]. }
    destruct Hcase as [(Hfile & _ & _ & _ & Hl1 & Ho1 & Hn1)|(Hfile & _ & _ & _ & Hl1 & Ho1 & Hn1)].
    + assert ((Statistics.largest_file st).2 ≤ (Statistics.largest_file st1).2
              ∧ file_size fs item ≤ (Statistics.largest_file st1).2)%Z as [Hl2 Hl3].
      { rewrite Hl1. case_goal_decide; simpl; lia. }
      assert ((Statistics.newest_file st).2 ≤ (Statistics.newest_file st1).2
              ∧ file_mtime fs item ≤ (Statistics.newest_file st1).2)%Z as [Hn2 Hn3].
      { rewrite Hn1. case_goal_decide; simpl; lia. }
      assert ((∀ t, time_lt t (Statistics.oldest_file st1).2 = true →
                    time_lt t (Statistics.oldest_file st).2 = true)
              ∧ time_lt (file_mtime fs item) (Statistics.oldest_file st1).2 = false)
        as [Ho2 Ho3].
      { rewrite Ho1. destruct (time_lt (file_mtime fs item) _) eqn:Hlt; simpl.
        - split; [|apply bool_decide_eq_false_2; lia].
          intros t Ht%bool_decide_eq_true_1.
          destruct (Statistics.oldest_file st).2 as [t0|]; simpl in *; [|done].
          apply bool_decide_eq_true_1 in Hlt. apply bool_decide_eq_true_2. lia.
        - done. }
      split; [lia|]. split; [lia|]. split; [auto|]. split.
      { intros p [->|Hp]%elem_of_cons Hpf; [|by apply Hall].
        split; [lia|]. split; [lia|].
        destruct (time_lt (file_mtime fs item) (Statistics.oldest_file st').2) eqn:Hlt;
          [|done]. apply Ho in Hlt. congruence. }
      split; [|split].
      * destruct Hla as [->|Hla]; [|right; by apply Hlift].
        rewrite Hl1. case_goal_decide; [right|by left].
        exists item. split; [left|done].
      * destruct Hna as [->|Hna]; [|right; by apply Hlift].
        rewrite Hn1. case_goal_decide; [right|by left].
        exists item. split; [left|done].
      * destruct Hoa as [->|Hoa]; [|right; by apply Hlift].
        rewrite Ho1. destruct (time_lt _ _); [right|by left].
        exists item. split; [left|done].
    + rewrite Hl1 in *. rewrite Hn1 in *. rewrite Ho1 in *.
      split; [done|]. split; [done|]. split; [done|]. split.
      { intros p [->|Hp]%elem_of_cons Hpf; [congruence|by apply Hall]. }
      split; [|split].
      * destruct Hla as [?|Hla]; [by left|right; by apply Hlift].
      * destruct Hna as [?|Hna]; [by left|right; by apply Hlift].
      * destruct Hoa as [?|Hoa]; [by left|right; by apply Hlift].
Qed.

(** X10. In a report, no regular file the traversal met is larger than the
    largest-file record, newer than the newest-file record or older than
    the oldest-file record; the oldest-file record is one of those files
    with its own time stamp, and each of the other two records is such a
    file with its own value or still the initial record (an empty path with
    value 0). *)
Theorem statistics_records in_range walker fs directory st o n :
  Statistics.get_directory_statistics_with in_range walker fs directory
  = Statistics.StatsReport st o n →
  let walk := walker fs directory in
  (∀ p, p ∈ walk → is_file fs p = true →
        (file_size fs p ≤ (Statistics.largest_file st).2)%Z
        ∧ (file_mtime fs p ≤ (Statistics.newest_file st).2)%Z
        ∧ (o ≤ file_mtime fs p)%Z)
  ∧ (∃ p, p ∈ walk ∧ is_file fs p = true
        ∧ Statistics.oldest_file st = (p, Finite o) ∧ o = file_mtime fs p)
  ∧ (Statistics.largest_file st = ([], 0%Z)
     ∨ ∃ p, p ∈ walk ∧ is_file fs p = true
          ∧ Statistics.largest_file st = (p, file_size fs p))
  ∧ (Statistics.newest_file st = ([], 0%Z) ∧ n = 0%Z
     ∨ ∃ p, p ∈ walk ∧ is_file fs p = true
          ∧ Statistics.newest_file st = (p, file_mtime fs p) ∧ n = file_mtime fs p).
Proof.
  intros Hres walk. unfold Statistics.get_directory_statistics_with in Hres.
  destruct (negb (exists_ fs directory)); [done|].
  destruct (stats_loop_records fs walk Statistics.initial_stats)
    as (st' & Hloop & _ & _ & _ & Hall & Hla & Hna & Hoa).
  subst walk. rewrite Hloop in Hres.
  destruct (fromtimestamp in_range (Statistics.oldest_file st').2) as [o'|] eqn:Hts;
    [|done].
  destruct (fromtimestamp in_range (Finite _)) as [n'|] eqn:Htn; [|done].
  injection Hres as -> -> ->.
  simpl in Htn. destruct (in_range (Statistics.newest_file st).2); [|done].
  injection Htn as <-.
  destruct (Statistics.oldest_file st).2 as [t|] eqn:Hold; [|done].
  simpl in Hts. destruct (in_range t); [|done]. injection Hts as ->.
  split; [|split; [|split]].
  - intros p Hp Hpf. destruct (Hall p Hp Hpf) as (? & ? & Hlt).
    rewrite ?Hold in Hlt. simpl in Hlt. apply bool_decide_eq_false_1 in Hlt.
    split; [done|]. split; [done|lia].
  - destruct Hoa as [Hinit|(p & Hp & Hpf & Heq)].
    + rewrite Hinit in Hold. done.
    + exists p. rewrite Heq in Hold. simpl in Hold. injection Hold as <-.
      by rewrite Heq.
  - done.
  - destruct Hna as [->|(p & Hp & Hpf & ->)]; [by left|right]. by exists p.
Qed.


Lemma statistics_totals_witness :
  let walk := rglob dated_tree ["data"%string] in
  let st := Statistics.Stats 3 1 9 {[ ".log"%string := 2; ".txt"%string := 1 ]}
              (["data"; "b.log"]%string, 5%Z)
              (["data"; "b.log"]%string, Finite 50)
              (["data"; "sub"; "c.txt"]%string, 200%Z) in
  Statistics.total_files st = length (filter (λ p, is_file dated_tree p = true) walk)
  ∧ Statistics.total_dirs st = length (filter (λ p, is_dir dated_tree p = true) walk)
  ∧ Statistics.total_size st = sum_sizes dated_tree walk.
Proof.
  intros walk st.
  apply (statistics_totals calendar_range rglob dated_tree ["data"%string] st 50 200).
  vm_compute. reflexivity.
Defined.

Lemma statistics_records_witness :
  let walk := rglob dated_tree ["data"%string] in
  let st := Statistics.Stats 3 1 9 {[ ".log"%string := 2; ".txt"%string := 1 ]}
              (["data"; "b.log"]%string, 5%Z)
              (["data"; "b.log"]%string, Finite 50)
              (["data"; "sub"; "c.txt"]%string, 200%Z) in
  (∀ p, p ∈ walk → is_file dated_tree p = true →
        (file_size dated_tree p ≤ (Statistics.largest_file st).2)%Z
        ∧ (file_mtime dated_tree p ≤ (Statistics.newest_file st).2)%Z
        ∧ (50 ≤ file_mtime dated_tree p)%Z)
  ∧ (∃ p, p ∈ walk ∧ is_file dated_tree p = true
        ∧ Statistics.oldest_file st = (p, Finite 50) ∧ 50%Z = file_mtime dated_tree p)
  ∧ (Statistics.largest_file st = ([], 0%Z)
     ∨ ∃ p, p ∈ walk ∧ is_file dated_tree p = true
          ∧ Statistics.largest_file st = (p, file_size dated_tree p))
  ∧ (Statistics.newest_file st = ([], 0%Z) ∧ 200%Z = 0%Z
     ∨ ∃ p, p ∈ walk ∧ is_file dated_tree p = true
          ∧ Statistics.newest_file st = (p, file_mtime dated_tree p)
          ∧ 200%Z = file_mtime dated_tree p).
Proof.
  intros walk st.
  apply (statistics_records calendar_range rglob dated_tree ["data"%string] st 50 200).
  vm_compute. reflexivity.
Defined.


(** ** The shape of the tree *)

Lemma prefix_snoc_inv (r q : path) (x : string) :
  r `prefix_of` q ++ [x] → r = q ++ [x] ∨ r `prefix_of` q.
Proof.
  intros [k Hk]. destruct k as [|y k _] using rev_ind.
  - left. by rewrite app_nil_r in Hk.
  - right. rewrite app_assoc in Hk. apply app_inj_tail in Hk as [-> _].
    by apply prefix_app_r.
Qed.

Lemma parent_prefix (p : path) : parent p `prefix_of` p.
Proof.
  destruct p as [|a p _] using rev_ind; [done|].
  rewrite parent_child. by apply prefix_app_r.
Qed.

Lemma parent_ne (p : path) : p ≠ [] → parent p ≠ p.
Proof.
  destruct p as [|a p _] using rev_ind; [done|]. intros _.
  rewrite parent_child. intros Heq. apply (f_equal length) in Heq.
  rewrite length_app in Heq. simpl in Heq. lia.
Qed.

(** In a well-formed tree every ancestor of an entry is there, as a
    directory. *)
Lemma well_formed_ancestors fs p q :
  well_formed fs → is_Some (fs !! p) → q `prefix_of` p → q ≠ p → fs !! q = Some Dir.
Proof.
  intros Hwf. revert q. induction p as [|x p IH] using rev_ind; intros q Hp Hq Hne.
  - apply prefix_nil_inv in Hq. done.
  - assert (fs !! p = Some Dir) as Hparent.
    { rewrite <-(parent_child p x). apply Hwf; [done|]. by destruct p. }
    apply prefix_snoc_inv in Hq as [->|Hq]; [done|].
    destruct (decide (q = p)) as [->|]; [done|]. apply IH; eauto.
Qed.

Lemma well_formed_below_missing fs p q :
  well_formed fs → fs !! p = None → p `prefix_of` q → fs !! q = None.
Proof.
  intros Hwf Hp Hpq. destruct (fs !! q) as [nd|] eqn:Hq; [|done].
  destruct (decide (p = q)) as [->|Hne]; [congruence|].
  rewrite (well_formed_ancestors fs q p) in Hp; [done|eauto..].
Qed.

Lemma well_formed_alt fs :
  well_formed fs ↔ map_Forall (λ p _, p = [] ∨ fs !! parent p = Some Dir) fs.
Proof.
  split.
  - intros Hwf p nd Hp. destruct (decide (p = [])); [by left|right]. apply Hwf; eauto.
  - intros Hall p [nd Hp] Hne. by destruct (Hall p nd Hp).
Qed.

Lemma well_formed_insert_dir fs p :
  well_formed fs → fs !! p = None → (p = [] ∨ fs !! parent p = Some Dir) →
  well_formed (<[p := Dir]> fs).
Proof.
  intros Hwf Hp Hparent q Hq Hne.
  destruct (decide (parent q = p)) as [<-|Hpq]; [apply lookup_insert_eq|].
  rewrite lookup_insert_ne by done.
  destruct (decide (p = q)) as [<-|Hqp].
  - by destruct Hparent.
  - rewrite lookup_insert_ne in Hq by done. by apply Hwf.
Qed.

Lemma well_formed_insert_file fs p d :
  well_formed fs → fs !! p ≠ Some Dir → fs !! parent p = Some Dir →
  well_formed (<[p := File d]> fs).
Proof.
  intros Hwf Hp Hparent q Hq Hne.
  assert (parent q ≠ p) as Hpq.
  { intros <-. pose proof (parent_ne q Hne) as Hneq.
    rewrite lookup_insert_ne in Hq by done. apply Hp. by apply Hwf. }
  rewrite lookup_insert_ne by done.
  destruct (decide (p = q)) as [<-|Hqp]; [done|].
  rewrite lookup_insert_ne in Hq by done. by apply Hwf.
Qed.

Lemma well_formed_delete_file fs p d :
  well_formed fs → fs !! p = Some (File d) → well_formed (delete p fs).
Proof.
  intros Hwf Hp q Hq Hne.
  destruct (decide (p = q)) as [<-|Hqp]; [rewrite lookup_delete_eq in Hq; by destruct Hq|].
  rewrite lookup_delete_ne in Hq by done.
  rewrite lookup_delete_ne; [by apply Hwf|].
  intros Heq. specialize (Hwf q Hq Hne). congruence.
Qed.

Lemma well_formed_rmtree fs p :
  well_formed fs → well_formed (filter (λ kv, ¬ p `prefix_of` kv.1) fs).
Proof.
  intros Hwf q [nd Hq] Hne. apply map_lookup_filter_Some in Hq as [Hq Hnot].
  apply map_lookup_filter_Some. split; [apply Hwf; eauto|].
  simpl in *. intros Hpre. apply Hnot. etrans; [done|apply parent_prefix].
Qed.

Lemma mkdir_single_well_formed fs p fs' :
  mkdir_single fs p true = Some fs' → well_formed fs → well_formed fs'.
Proof.
  intros [[-> _]|(-> & Hp & Hparent)]%mkdir_single_spec Hwf; [done|].
  apply well_formed_insert_dir; auto.
Qed.

Lemma mkdir_parents_well_formed fuel fs p fs' :
  mkdir_parents fuel fs p true = Some fs' → well_formed fs →
  well_formed fs' ∧ fs' !! p = Some Dir.
Proof.
  revert fs p fs'. induction fuel as [|fuel IH]; intros fs p fs' Hmk Hwf;
    simpl in Hmk; unfold os_mkdir, is_dir in Hmk.
  - destruct (fs !! p) as [[d|]|] eqn:Hp; simpl in Hmk; simplify_eq; [done|].
    destruct (fs !! parent p) as [[d|]|] eqn:Hparent; simplify_eq.
    + split; [apply well_formed_insert_dir; auto|apply lookup_insert_eq].
    + by case_bool_decide.
  - destruct (fs !! p) as [[d|]|] eqn:Hp; simpl in Hmk; simplify_eq; [done|].
    destruct (fs !! parent p) as [[d|]|] eqn:Hparent; simplify_eq.
    + split; [apply well_formed_insert_dir; auto|apply lookup_insert_eq].
    + case_bool_decide; [done|].
      destruct (mkdir_parents fuel fs (parent p) true) as [fs1|] eqn:Hrec; [|done].
      destruct (IH _ _ _ Hrec Hwf) as [Hwf1 _].
      split; [by eapply mkdir_single_well_formed|].
      by apply mkdir_single_adds_dirs in Hmk as [_ ?].
Qed.

Lemma mkdir_well_formed fs p fs' :
  mkdir fs p true true = Some fs' → well_formed fs →
  well_formed fs' ∧ fs' !! p = Some Dir.
Proof. unfold mkdir. apply mkdir_parents_well_formed. Qed.

(** Making a directory, when no ancestor is in the way. *)
Lemma mkdir_parents_complete fs p fuel :
  well_formed fs → fs !! [] = Some Dir → length p ≤ fuel →
  (∀ q, q `prefix_of` p → is_file fs q = false) →
  ∃ fs', mkdir_parents fuel fs p true = Some fs'
       ∧ (∀ q, q `prefix_of` p → fs' !! q = Some Dir)
       ∧ (∀ q, ¬ q `prefix_of` p → fs' !! q = fs !! q).
Proof.
  intros Hwf Hroot. revert fuel.
  induction p as [|x p IH] using rev_ind; intros fuel Hlen Hfree.
  - exists fs. split.
    + destruct fuel; simpl; unfold os_mkdir, is_dir; by rewrite Hroot.
    + split; [|done]. by intros q ->%prefix_nil_inv.
  - assert (is_file fs (p ++ [x]) = false) as Hself by (by apply Hfree).
    assert (is_file fs p = false) as Hparent_free by (apply Hfree; by apply prefix_app_r).
    unfold is_file in Hself, Hparent_free.
    assert (mkdir_parents fuel fs (p ++ [x]) true
            = match os_mkdir fs (p ++ [x]) with
              | MkOk fs' => Some fs'
              | MkOSError => if true && is_dir fs (p ++ [x]) then Some fs else None
              | MkFileNotFound =>
                  match fuel with
                  | O => None
                  | S fuel' =>
                      match mkdir_parents fuel' fs p true with
                      | Some fs1 => mkdir_single fs1 (p ++ [x]) true
                      | None => None
                      end
                  end
              end) as ->.
    { destruct fuel; simpl; destruct (os_mkdir _ _); try done;
        rewrite parent_child;
        (rewrite bool_decide_eq_false_2; [done|]);
        intros Heq; apply (f_equal length) in Heq;
        rewrite length_app in Heq; simpl in Heq; lia. }
    unfold os_mkdir, is_dir. rewrite parent_child.
    destruct (fs !! (p ++ [x])) as [[d|]|] eqn:Hp; [done| |].
    + exists fs. split; [done|]. split; [|done].
      intros q Hq. destruct (decide (q = p ++ [x])) as [->|]; [done|].
      eapply well_formed_ancestors; eauto.
    + destruct (fs !! p) as [[d|]|] eqn:Hparent; [done| |].
      * exists (<[p ++ [x] := Dir]> fs). split; [done|]. split.
        -- intros q [->|Hq]%prefix_snoc_inv; [apply lookup_insert_eq|].
           rewrite lookup_insert_ne by (intros <-; by apply prefix_snoc_not in Hq).
           destruct (decide (q = p)) as [->|]; [done|].
           eapply well_formed_ancestors; eauto.
        -- intros q Hq. apply lookup_insert_ne. by intros <-.
      * rewrite length_app in Hlen. simpl in Hlen.
        destruct fuel as [|fuel]; [lia|].
        destruct (IH fuel) as (fs1 & -> & Hdirs & Hsame); [lia|..].
        { intros q Hq. apply Hfree. by apply prefix_app_r. }
        assert (fs1 !! (p ++ [x]) = None) as Hp1.
        { rewrite Hsame; [done|]. apply prefix_snoc_not. }
        unfold mkdir_single, os_mkdir. rewrite Hp1, parent_child, (Hdirs p) by done.
        exists (<[p ++ [x] := Dir]> fs1). split; [done|]. split.
        -- intros q [->|Hq]%prefix_snoc_inv; [apply lookup_insert_eq|].
           rewrite lookup_insert_ne by (intros <-; by apply prefix_snoc_not in Hq).
           by apply Hdirs.
        -- intros q Hq. rewrite lookup_insert_ne by (by intros <-).
           apply Hsame. intros Hq'. apply Hq. by apply prefix_app_r.
Qed.

(** X12. In a well-formed tree with a root directory, [create_directory]
    succeeds exactly when neither the path nor one of its ancestors is a
    regular file.  When it succeeds, the path and all its ancestors are
    directories and every other entry is as before; when it fails, nothing
    has changed. *)
Theorem create_directory_spec fs dir_path :
  well_formed fs → fs !! [] = Some Dir →
  let out := create_directory fs dir_path in
  (out.1 = CreateOk ↔ ∀ q, q `prefix_of` dir_path → is_file fs q = false)
  ∧ (out.1 = CreateOk →
       (∀ q, q `prefix_of` dir_path → out.2 !! q = Some Dir)
       ∧ (∀ q, ¬ q `prefix_of` dir_path → out.2 !! q = fs !! q))
  ∧ (out.1 = CreateError → out.2 = fs).
Proof.
  intros Hwf Hroot out. subst out. unfold create_directory.
  destruct (mkdir fs dir_path true true) as [fs'|] eqn:Hmk; simpl.
  - assert (∀ q, q `prefix_of` dir_path → is_file fs q = false) as Hfree.
    { intros q Hq. destruct (is_file fs q) eqn:Hfile; [exfalso|done].
      unfold is_file in Hfile. destruct (fs !! q) as [[d|]|] eqn:Hfq; try done.
      destruct (mkdir_well_formed _ _ _ Hmk Hwf) as [Hwf' Hdir].
      apply mkdir_adds_dirs in Hmk as [Hsub _].
      pose proof (lookup_weaken _ _ _ _ Hfq Hsub) as Hfq'.
      destruct (decide (q = dir_path)) as [->|Hne]; [congruence|].
      rewrite (well_formed_ancestors fs' dir_path q) in Hfq'; [done|eauto..]. }
    split; [done|]. split; [|done]. intros _.
    destruct (mkdir_parents_complete fs dir_path (length dir_path) Hwf Hroot)
      as (fs1 & Hmk1 & ? & ?); [done..|].
    unfold mkdir in Hmk. rewrite Hmk in Hmk1. by injection Hmk1 as ->.
  - split; [|done]. split; [done|]. intros Hfree.
    destruct (mkdir_parents_complete fs dir_path (length dir_path) Hwf Hroot)
      as (fs1 & Hmk1 & _); [done..|].
    unfold mkdir in Hmk. congruence.
Qed.

Lemma well_formed_decide fs :
  bool_decide (map_Forall (λ p _, p = [] ∨ is_dir fs (parent p) = true) fs) = true →
  well_formed fs.
Proof.
  intros H%bool_decide_eq_true_1. apply well_formed_alt.
  intros p nd Hp. destruct (H p nd Hp) as [->|Hd]; [by left|right].
  unfold is_dir in Hd. by destruct (fs !! parent p) as [[|]|].
Qed.

Lemma create_directory_spec_witness :
  let out := create_directory notes_tree ["notes"; "new"; "deep"]%string in
  (out.1 = CreateOk
   ↔ ∀ q, q `prefix_of` ["notes"; "new"; "deep"]%string → is_file notes_tree q = false)
  ∧ (out.1 = CreateOk →
       (∀ q, q `prefix_of` ["notes"; "new"; "deep"]%string → out.2 !! q = Some Dir)
       ∧ (∀ q, ¬ q `prefix_of` ["notes"; "new"; "deep"]%string → out.2 !! q = notes_tree !! q))
  ∧ (out.1 = CreateError → out.2 = notes_tree).
Proof.
  apply (create_directory_spec notes_tree ["notes"; "new"; "deep"]%string).
  - apply well_formed_decide. vm_compute. reflexivity.
  - vm_compute. reflexivity.
Defined.

(** ** delete_file_or_directory *)



(** X14. Creating a directory whose parent is there and deleting it again
    gives back the file system as it was. *)
Theorem create_then_delete fs p :
  well_formed fs → fs !! p = None → fs !! parent p = Some Dir →
  delete_file_or_directory (create_directory fs p).2 p = (DeletedDir, fs).
Proof.
  intros Hwf Hp Hparent.
  assert ((create_directory fs p).2 = <[p := Dir]> fs) as ->.
  { unfold create_directory, mkdir.
    destruct (length p); simpl; unfold os_mkdir; by rewrite Hp, Hparent. }
  unfold delete_file_or_directory, exists_, is_file, is_dir, rmtree, is_dir.
  rewrite lookup_insert_eq. simpl. f_equal.
  apply map_eq. intros q. destruct (decide (p `prefix_of` q)) as [Hpre|Hpre].
  - rewrite (well_formed_below_missing fs p q) by done.
    apply map_lookup_filter_None. right. intros nd _. simpl. tauto.
  - rewrite map_lookup_filter. rewrite lookup_insert_ne by (by intros <-).
    destruct (fs !! q) as [nd|]; simpl; [|done].
    by rewrite option_guard_True.
Qed.

Lemma create_then_delete_witness :
  delete_file_or_directory (create_directory notes_tree ["notes"; "new"]%string).2
    ["notes"; "new"]%string
  = (DeletedDir, notes_tree).
Proof.
  apply (create_then_delete notes_tree ["notes"; "new"]%string).
  - apply well_formed_decide. vm_compute. reflexivity.
  - vm_compute. reflexivity.
  - vm_compute. reflexivity.
Defined.

(** ** write_file and read_file *)

(** What [mkdir(parents=True, exist_ok=True)] does when it returns. *)
Lemma mkdir_parents_spec fs p fs' :
  well_formed fs → fs !! [] = Some Dir → mkdir fs p true true = Some fs' →
  (∀ q, q `prefix_of` p → is_file fs q = false)
  ∧ (∀ q, q `prefix_of` p → fs' !! q = Some Dir)
  ∧ (∀ q, ¬ q `prefix_of` p → fs' !! q = fs !! q).
Proof.
  intros Hwf Hroot Hmk.
  assert (∀ q, q `prefix_of` p → is_file fs q = false) as Hfree.
  { intros q Hq. destruct (is_file fs q) eqn:Hfile; [exfalso|done].
    unfold is_file in Hfile. destruct (fs !! q) as [[d|]|] eqn:Hfq; try done.
    destruct (mkdir_well_formed _ _ _ Hmk Hwf) as [Hwf' Hdir].
    pose proof Hmk as Hmk'. apply mkdir_adds_dirs in Hmk' as [Hsub _].
    pose proof (lookup_weaken _ _ _ _ Hfq Hsub) as Hfq'.
    destruct (decide (q = p)) as [->|Hne]; [congruence|].
    rewrite (well_formed_ancestors fs' p q) in Hfq'; [done|eauto..]. }
  split; [done|].
  destruct (mkdir_parents_complete fs p (length p) Hwf Hroot)
    as (fs1 & Hmk1 & ? & ?); [done..|].
  unfold mkdir in Hmk. rewrite Hmk in Hmk1. by injection Hmk1 as ->.
Qed.

(** ... and when it raises. *)
Lemma mkdir_parents_fails fs p :
  well_formed fs → fs !! [] = Some Dir → mkdir fs p true true = None →
  ¬ ∀ q, q `prefix_of` p → is_file fs q = false.
Proof.
  intros Hwf Hroot Hmk Hfree.
  destruct (mkdir_parents_complete fs p (length p) Hwf Hroot)
    as (fs1 & Hmk1 & _); [done..|].
  unfold mkdir in Hmk. congruence.
Qed.

Lemma not_prefix_parent (p : path) : p ≠ [] → ¬ p `prefix_of` parent p.
Proof.
  destruct p as [|a p _] using rev_ind; [done|]. intros _.
  rewrite parent_child. apply prefix_snoc_not.
Qed.

Section TextFilesFacts.

Context {text : Type}.
Variable text_len : text → nat.
Variable encode_text : text → option (list byte).
Variable decode_text : list byte → option text.
Variable guess_type : path → option string.
Variable may_write : file_data → bool.

Local Abbreviation write := (write_file text_len encode_text may_write).
Local Abbreviation read := (read_file decode_text guess_type).

(** What [open(p, 'w')] leaves when it returns. *)
Lemma open_w_spec now fs p fs2 :
  open_w may_write now fs p = Some fs2 →
  ∃ r, fs2 = <[p := File (FileData [] r now)]> fs
     ∧ fs !! p ≠ Some Dir
     ∧ (∀ d, fs !! p = Some (File d) → r = readable d ∧ may_write d = true)
     ∧ (fs !! p = None → r = true ∧ fs !! parent p = Some Dir).
Proof.
  unfold open_w, is_dir. destruct (fs !! p) as [[d|]|] eqn:Hp; [|done|].
  - destruct (may_write d) eqn:Hw; [|done]. intros [= <-].
    exists (readable d). split; [done|]. split; [done|]. split; [|done].
    by intros d' [= <-].
  - destruct (fs !! parent p) as [[d|]|] eqn:Hparent; try done. intros [= <-].
    exists true. split; [done|]. split; [done|]. split; [done|]. done.
Qed.

Lemma write_data_open now fs p r data :
  write_data (<[p := File (FileData [] r now)]> fs) p data
  = <[p := File (FileData data r now)]> fs.
Proof. unfold write_data. rewrite lookup_insert_eq. simpl. apply insert_insert_eq. Qed.

(** X15. What [write_file] has written, [read_file] gives back: when the
    write succeeds on a path that was not an unreadable file, the text
    encodes to bytes that decode to it again, the name does not look binary
    and the bytes are at most one megabyte, the report counts the
    characters of the text and reading the path returns the text. *)
Theorem write_then_read now fs p new_text data :
  let out := write now fs p new_text in
  out.1 ≠ WriteError →
  (∀ d, fs !! p = Some (File d) → readable d = true) →
  encode_text new_text = Some data →
  decode_text data = Some new_text →
  binary_type (guess_type p) = None →
  (Z.of_nat (length data) ≤ 1024 * 1024)%Z →
  out.1 = WriteOk (text_len new_text) ∧ read out.2 p = ReadOk new_text.
Proof.
  intros out Hok Hread Henc Hdec Hmime Hsize. subst out.
  unfold write_file in *.
  destruct (mkdir fs (parent p) true true) as [fs1|] eqn:Hmk; [|done].
  apply mkdir_adds_dirs in Hmk as [_ Hfiles].
  destruct (open_w may_write now fs1 p) as [fs2|] eqn:Hopen; [|done].
  rewrite Henc in *. simpl. split; [done|].
  destruct (open_w_spec _ _ _ _ Hopen) as (r & -> & Hnd & Hfile & Hnew).
  rewrite write_data_open.
  assert (r = true) as ->.
  { destruct (fs1 !! p) as [[d|]|] eqn:Hp; [|done|by apply Hnew].
    destruct (Hfile d eq_refl) as [-> _]. by apply Hread, Hfiles. }
  unfold read_file, exists_, is_file, stat, read_bytes.
  rewrite lookup_insert_eq. simpl.
  rewrite bool_decide_eq_false_2 by lia. by rewrite Hmime, Hdec.
Qed.

(** X16. In a well-formed tree with a root directory, [write_file] can
    open the file exactly when no ancestor of the path is a regular file,
    the path is not a directory, and a file that is there may be written;
    it succeeds exactly when it can open the file and the text can be
    encoded.  Once the file is opened, the path holds the encoded text with
    the time of the write, or nothing when the text cannot be encoded, its
    ancestors are directories and every other entry is as before.  When the
    file cannot be opened, nothing has changed. *)
Theorem write_file_spec now fs p new_text :
  well_formed fs → fs !! [] = Some Dir →
  let out := write now fs p new_text in
  let can_open :=
    (∀ q, q `prefix_of` parent p → is_file fs q = false)
    ∧ is_dir fs p = false
    ∧ (∀ d, fs !! p = Some (File d) → may_write d = true) in
  (out.1 ≠ WriteError ↔ can_open ∧ is_Some (encode_text new_text))
  ∧ (can_open →
       (∃ d, out.2 !! p = Some (File d)
             ∧ content d = default [] (encode_text new_text) ∧ mtime d = now)
       ∧ (∀ q, q `prefix_of` parent p → out.2 !! q = Some Dir)
       ∧ (∀ q, ¬ q `prefix_of` p → out.2 !! q = fs !! q))
  ∧ (¬ can_open → out.2 = fs).
Proof.
  intros Hwf Hroot out can_open. subst out can_open. unfold write_file.
  destruct (mkdir fs (parent p) true true) as [fs1|] eqn:Hmk; simpl.
  2:{ pose proof (mkdir_parents_fails fs (parent p) Hwf Hroot Hmk) as Hblocked.
      split; [|split; [|done]].
      - split; [done|]. by intros [[Hfree _] _].
      - by intros [Hfree _]. }
  destruct (mkdir_parents_spec _ _ _ Hwf Hroot Hmk) as (Hfree & Hdirs & Hsame).
  assert (is_Some (fs !! p) → fs1 = fs) as Hkept.
  { intros Hp. apply map_eq. intros q.
    destruct (decide (q `prefix_of` parent p)) as [Hq|Hq]; [|by apply Hsame].
    rewrite (Hdirs q Hq). symmetry.
    destruct (decide (p = [])) as [->|Hne].
    { apply prefix_nil_inv in Hq. by subst q. }
    apply (well_formed_ancestors fs p q); [done..| |].
    - etrans; [done|apply parent_prefix].
    - intros ->. by apply (not_prefix_parent p). }
  assert (fs1 !! p = fs !! p) as Hp.
  { destruct (decide (p = [])) as [->|Hne]; [|by apply Hsame, not_prefix_parent].
    by rewrite Hroot, (Hdirs [] (reflexivity _)). }
  destruct (open_w may_write now fs1 p) as [fs2|] eqn:Hopen.
  - destruct (open_w_spec _ _ _ _ Hopen) as (r & -> & Hnd & Hfile & Hnew).
    rewrite Hp in Hnd, Hfile, Hnew.
    assert (p ≠ []) as Hne by (intros ->; congruence).
    assert ((∀ q, q `prefix_of` parent p → is_file fs q = false)
            ∧ is_dir fs p = false
            ∧ (∀ d, fs !! p = Some (File d) → may_write d = true)) as Hcan.
    { split; [done|]. split; [|by intros d [_ ?]%Hfile].
      unfold is_dir. by destruct (fs !! p) as [[d|]|]. }
    assert (∀ d, let fs3 := <[p := File d]> fs1 in
                 (∀ q, q `prefix_of` parent p → fs3 !! q = Some Dir)
                 ∧ (∀ q, ¬ q `prefix_of` p → fs3 !! q = fs !! q)) as Hframe.
    { intros d fs3. subst fs3. split; intros q Hq.
      - rewrite lookup_insert_ne; [by apply Hdirs|].
        intros <-. by apply (not_prefix_parent p).
      - rewrite lookup_insert_ne by (by intros <-). apply Hsame.
        intros Hq'. apply Hq. etrans; [done|apply parent_prefix]. }
    destruct (encode_text new_text) as [data|]; simpl.
    + rewrite write_data_open. split; [|split; [|done]].
      * split; [intros _|done]. split; [done|eauto].
      * intros _. split; [|apply Hframe]. eexists. by rewrite lookup_insert_eq.
    + split; [|split; [|done]].
      * split; [done|]. intros [_ Hs]. by destruct Hs.
      * intros _. split; [|apply Hframe]. eexists. by rewrite lookup_insert_eq.
  - assert (¬ ((∀ q, q `prefix_of` parent p → is_file fs q = false)
               ∧ is_dir fs p = false
               ∧ (∀ d, fs !! p = Some (File d) → may_write d = true))) as Hcannot.
    { intros (_ & Hd & Hw). unfold open_w, is_dir in Hopen, Hd. rewrite Hp in Hopen.
      destruct (fs !! p) as [[d|]|] eqn:Hfp; [|done|].
      - by rewrite (Hw d eq_refl) in Hopen.
      - rewrite (Hdirs (parent p) (reflexivity _)) in Hopen. done. }
    split; [|split; [done|]].
    + split; [done|]. by intros [? _].
    + intros _. apply Hkept. rewrite <- Hp.
      unfold open_w, is_dir in Hopen.
      destruct (fs1 !! p) as [nd|]; [eauto|].
      rewrite (Hdirs (parent p) (reflexivity _)) in Hopen. done.
Qed.

(** X17. [create_directory], [delete_file_or_directory] and [write_file]
    keep the tree well formed: whatever they report, every entry they
    leave behind still sits in a directory. *)
Theorem single_entry_tools_keep_tree fs p now new_text :
  well_formed fs →
  well_formed (create_directory fs p).2
  ∧ well_formed (delete_file_or_directory fs p).2
  ∧ well_formed (write now fs p new_text).2.
Proof.
  intros Hwf. split; [|split].
  - unfold create_directory.
    destruct (mkdir fs p true true) as [fs'|] eqn:Hmk; [|done].
    by apply (mkdir_well_formed fs p).
  - unfold delete_file_or_directory, unlink, rmtree, exists_, is_file, is_dir.
    destruct (fs !! p) as [[d|]|] eqn:Hp; simpl; [| |done].
    + by apply (well_formed_delete_file fs p d).
    + by apply well_formed_rmtree.
  - unfold write_file.
    destruct (mkdir fs (parent p) true true) as [fs1|] eqn:Hmk; [|done].
    destruct (mkdir_well_formed _ _ _ Hmk Hwf) as [Hwf1 Hpar].
    destruct (open_w may_write now fs1 p) as [fs2|] eqn:Hopen; [|done].
    destruct (open_w_spec _ _ _ _ Hopen) as (r & -> & Hnd & _).
    destruct (encode_text new_text) as [data|]; simpl.
    + rewrite write_data_open. by apply well_formed_insert_file.
    + by apply well_formed_insert_file.
Qed.

End TextFilesFacts.

Lemma write_then_read_witness :
  let out := write_file String.length ascii_bytes readable 500 notes_tree
               ["notes"; "new"; "hello.txt"]%string "hello"%string in
  out.1 = WriteOk 5
  ∧ read_file (λ data, Some (latin_text data)) (λ _, None) out.2
      ["notes"; "new"; "hello.txt"]%string = ReadOk "hello"%string.
Proof.
  apply (write_then_read String.length ascii_bytes
           (λ data, Some (latin_text data)) (λ _, None) readable 500 notes_tree
           ["notes"; "new"; "hello.txt"]%string "hello"%string
           [x68; x65; x6c; x6c; x6f]).
  - vm_compute. discriminate.
  - intros d Hd. vm_compute in Hd. discriminate.
  - vm_compute. reflexivity.
  - vm_compute. reflexivity.
  - vm_compute. reflexivity.
  - vm_compute. discriminate.
Defined.

Lemma write_file_spec_witness :
  let p := ["notes"; "new"; "hello.txt"]%string in
  let out := write_file String.length ascii_bytes readable 500 notes_tree
               p "hello"%string in
  let can_open :=
    (∀ q, q `prefix_of` parent p → is_file notes_tree q = false)
    ∧ is_dir notes_tree p = false
    ∧ (∀ d, notes_tree !! p = Some (File d) → readable d = true) in
  (out.1 ≠ WriteError ↔ can_open ∧ is_Some (ascii_bytes "hello"))
  ∧ (can_open →
       (∃ d, out.2 !! p = Some (File d)
             ∧ content d = default [] (ascii_bytes "hello") ∧ mtime d = 500%Z)
       ∧ (∀ q, q `prefix_of` parent p → out.2 !! q = Some Dir)
       ∧ (∀ q, ¬ q `prefix_of` p → out.2 !! q = notes_tree !! q))
  ∧ (¬ can_open → out.2 = notes_tree).
Proof.
  apply (write_file_spec String.length ascii_bytes readable 500 notes_tree
           ["notes"; "new"; "hello.txt"]%string "hello"%string).
  - apply well_formed_decide. vm_compute. reflexivity.
  - vm_compute. reflexivity.
Defined.

Lemma single_entry_tools_keep_tree_witness :
  well_formed (create_directory notes_tree ["notes"; "new"]%string).2
  ∧ well_formed (delete_file_or_directory notes_tree ["notes"; "new"]%string).2
  ∧ well_formed (write_file String.length ascii_bytes readable 500 notes_tree
                   ["notes"; "new"]%string "hello"%string).2.
Proof.
  apply (single_entry_tools_keep_tree String.length ascii_bytes readable
           notes_tree ["notes"; "new"]%string 500 "hello"%string).
  apply well_formed_decide. vm_compute. reflexivity.
Defined.

(** ** list_directory *)

Lemma elem_of_entries (fs : filesystem) (q : path) :
  q ∈ (map_to_list fs).*1 ↔ is_Some (fs !! q).
Proof.
  rewrite list_elem_of_fmap. split.
  - intros ([q' nd] & -> & Hin). apply elem_of_map_to_list in Hin. eauto.
  - intros [nd Hq]. exists (q, nd). split; [done|]. by apply elem_of_map_to_list.
Qed.


(** ** search_files_by_content *)



Section SearchFacts.

Context {char : Type} `{EqDecision char}.
Variable decode_ignore : list byte → list char.
Variable str_lower : list char → list char.
Variable walker : filesystem → path → list path.

Local Abbreviation step := (search_step decode_ignore str_lower).
Local Abbreviation search := (search_files_by_content_with decode_ignore str_lower walker).




End SearchFacts.


(** ** The bulk tools keep the tree well formed *)

Lemma is_dir_true fs p : is_dir fs p = true → fs !! p = Some Dir.
Proof. unfold is_dir. by destruct (fs !! p) as [[d|]|]. Qed.

Lemma is_dir_false fs p : is_dir fs p = false → fs !! p ≠ Some Dir.
Proof. unfold is_dir. by destruct (fs !! p) as [[d|]|]. Qed.

Lemma copy2_well_formed fs src dst fs' :
  copy2 fs src dst = Some fs' → well_formed fs → well_formed fs'.
Proof.
  unfold copy2. destruct (fs !! src) as [[d|]|]; [|done..].
  destruct (readable d); [|done].
  set (dst' := if is_dir fs dst then dst ++ [name src] else dst).
  case_bool_decide; [done|].
  destruct (is_dir fs dst') eqn:Hdst; [done|].
  destruct (is_dir fs (parent dst')) eqn:Hparent; [|done].
  intros [= <-] Hwf.
  apply well_formed_insert_file; [done|by apply is_dir_false|by apply is_dir_true].
Qed.

Lemma rename_well_formed fs src dst fs' :
  rename fs src dst = Some fs' → well_formed fs → well_formed fs'.
Proof.
  unfold rename. destruct (fs !! src) as [[d|]|] eqn:Hsrc; [|done..].
  destruct (is_dir fs dst) eqn:Hdst; [done|].
  destruct (is_dir fs (parent dst)) eqn:Hparent; [|done].
  intros [= <-] Hwf. apply is_dir_false in Hdst. apply is_dir_true in Hparent.
  apply well_formed_insert_file.
  - by apply (well_formed_delete_file fs src d).
  - destruct (decide (src = dst)) as [->|Hne]; [by rewrite lookup_delete_eq|].
    by rewrite lookup_delete_ne.
  - rewrite lookup_delete_ne; [done|]. intros ->. congruence.
Qed.

Lemma organize_loop_well_formed str_lower target walk st :
  well_formed (org_fs st) →
  match organize_loop str_lower target walk st with
  | Next st' => well_formed (org_fs st')
  | Throw fs' => well_formed fs'
  | Spin => True
  end.
Proof.
  revert st. induction walk as [|p walk IH]; intros st Hwf; simpl; [done|].
  assert (match organize_step str_lower target st p with
          | Next st' => well_formed (org_fs st')
          | Throw fs' => well_formed fs'
          | Spin => True
          end) as Hstep.
  { unfold organize_step. destruct (is_file (org_fs st) p); [|done].
    unfold mkdir.
    destruct (mkdir_single _ _ _) as [fs1|] eqn:Hmk; [|done].
    apply mkdir_single_well_formed in Hmk; [|done].
    destruct (choose_destination _ _ _ _) as [destination|]; [|done].
    destruct (copy2 fs1 p destination) as [fs2|] eqn:Hcp; simpl; [|done].
    by apply (copy2_well_formed fs1 p destination). }
  destruct (organize_step str_lower target st p) as [st'| |]; [by apply IH|done..].
Qed.

Lemma batch_loop_well_formed re_sub joinpath pattern replacement extensions walk st :
  well_formed (batch_fs st) →
  well_formed
    (outcome_fs (batch_loop re_sub joinpath pattern replacement extensions walk st)).
Proof.
  revert st. induction walk as [|p walk IH]; intros st Hwf; simpl; [done|].
  assert (well_formed
            (outcome_fs (batch_step re_sub joinpath pattern replacement extensions st p)))
    as Hstep.
  { unfold batch_step. destruct (is_file (batch_fs st) p); [|done].
    destruct (filtered_out extensions p); [done|].
    destruct (re_sub pattern replacement (name p)) as [new_name|]; [|done].
    case_bool_decide; [|done].
    destruct (exists_ _ _); [done|].
    destruct (rename _ _ _) as [fs'|] eqn:Hmv; [|done]. simpl.
    by apply (rename_well_formed _ _ _ _ Hmv). }
  destruct (batch_step _ _ _ _ _ _ _) as [st'|fs']; [by apply IH|done].
Qed.

(** X21. [organize_files_by_type] and [batch_rename_files] keep the tree
    well formed, whatever they report and in whatever order the entries
    are visited. *)
Theorem bulk_tools_keep_tree str_lower walker re_sub joinpath lister fs source_dir
    target_dir directory pattern replacement file_extensions :
  well_formed fs →
  well_formed (organize_files_by_type_with str_lower walker fs source_dir target_dir).2
  ∧ well_formed
      (batch_rename_files_with re_sub joinpath lister fs directory pattern replacement
         file_extensions).2.
Proof.
  intros Hwf. split.
  - unfold organize_files_by_type_with.
    destruct (exists_ fs source_dir); simpl; [|done].
    destruct (mkdir fs target_dir true true) as [fs0|] eqn:Hmk; [|done].
    apply mkdir_well_formed in Hmk as [Hwf0 _]; [|done].
    pose proof (organize_loop_well_formed str_lower target_dir (walker fs0 source_dir)
                  (OrgState fs0 ∅) Hwf0) as Hloop.
    by destruct (organize_loop _ _ _ _) as [st| |].
  - unfold batch_rename_files_with.
    destruct (exists_ fs directory); simpl; [|done].
    destruct (lister fs directory) as [walk|]; [|done].
    pose proof (batch_loop_well_formed re_sub joinpath pattern replacement
                  (parse_extensions file_extensions) walk (BatchState fs []) Hwf) as Hloop.
    by destruct (batch_loop _ _ _ _ _ _ _) as [st|fs'].
Qed.

Lemma bulk_tools_keep_tree_witness :
  well_formed
    (organize_files_by_type_with lower rglob work_tree ["work"%string] ["sorted"%string]).2
  ∧ well_formed
      (batch_rename_files_with literal_sub join_child iterdir work_tree ["work"%string]
         "draft" "final" None).2.
Proof.
  apply (bulk_tools_keep_tree lower rglob literal_sub join_child iterdir work_tree
           ["work"%string] ["sorted"%string] ["work"%string] "draft" "final" None).
  apply well_formed_decide. vm_compute. reflexivity.
Defined.

(** ** A new directory is empty *)

(** X22. A directory that [create_directory] has just made where nothing
    was before lists as empty. *)
Theorem new_directory_lists_empty fs p :
  well_formed fs → fs !! [] = Some Dir → fs !! p = None →
  (create_directory fs p).1 = CreateOk →
  list_directory (create_directory fs p).2 p = ListEmpty.
Proof.
  intros Hwf Hroot Hp. unfold create_directory.
  destruct (mkdir fs p true true) as [fs'|] eqn:Hmk; [|done]. simpl. intros _.
  destruct (mkdir_parents_spec _ _ _ Hwf Hroot Hmk) as (_ & Hdirs & Hsame).
  unfold list_directory, list_directory_with, iterdir, exists_, is_dir.
  rewrite (Hdirs p) by done. simpl.
  destruct (filter _ _) as [|q children] eqn:Hchildren; [done|exfalso].
  assert (q ∈ filter (λ q, parent q = p ∧ q ≠ p) (map_to_list fs').*1) as Hq.
  { rewrite Hchildren. apply list_elem_of_here. }
  apply list_elem_of_filter in Hq as [[Hparent Hne] Hq]. apply elem_of_entries in Hq.
  assert (p `prefix_of` q) as Hpq by (rewrite <- Hparent; apply parent_prefix).
  rewrite Hsame, (well_formed_below_missing fs p q) in Hq; [by destruct Hq|done..|].
  intros Hqp. apply Hne. by apply (anti_symm prefix).
Qed.

Lemma new_directory_lists_empty_witness :
  list_directory (create_directory notes_tree ["notes"; "new"; "deep"]%string).2
    ["notes"; "new"; "deep"]%string = ListEmpty.
Proof.
  apply (new_directory_lists_empty notes_tree ["notes"; "new"; "deep"]%string).
  - apply well_formed_decide. vm_compute. reflexivity.
  - vm_compute. reflexivity.
  - vm_compute. reflexivity.
  - vm_compute. reflexivity.
Defined.
